(** * binary.js: a Binary class over arrays of bits

    Shallow embedding of [src/binary.js] and the properties of its
    conversions and operations.

    Modelling conventions.
    - A JavaScript Number is a double.  The class is embedded first with
      its Numbers read as the integers they stand for: an integral Number
      is an unbounded [Z], arithmetic on it ([+], [-], [2**e],
      [Math.abs]) is exact, and [Math.floor(Math.log2(n))] is the exact
      floor of the binary logarithm ([Z.log2]) for [n > 0]; for the other
      arguments the JavaScript result is not finite and every comparison
      with it is false.  This reading is the code's wherever no sum
      rounds and the logarithm of the host is the exact floor.
    - The two places where a double differs are embedded a second time.
      [Double.toNumber] and [Double.toSignedNumber] sum as the language
      does, rounding each sum to 53 significant bits; they differ from
      the exact sums from width 54 on.  [fromUnsigned_host] and
      [fromSigned_host] take [Math.floor(Math.log2(n))] as a parameter of
      the host, whose logarithm rounds up to the exponent of the next
      power of two just below it (at 2^49 - 1 it is 49).  Part IV states
      over these what depends on the sums or on the logarithm.
    - An array of bits is a [list Z], index 0 first.  The constructor does
      not validate its argument, so the elements are arbitrary integers;
      the operators [^], [&], [|] first apply [ToInt32] to their operands.
    - [throw new Error(...)] is the [Throw] result; the four messages of
      the file are the first four constructors of [error].
    - The class is embedded twice.  First with arrays as values: every
      method is a function on lists.  Then over a store of objects, where
      a variable holds a reference and [Array.prototype.reverse] writes in
      place.  Part I proves the arithmetic of the conversions and
      operations on the first embedding; Part II proves on the second that
      no method writes to an object that exists, and that each method of
      the second computes the list of the first. *)

From Stdlib Require Import ZArith List Lia Bool.
From stdpp Require Import base list.
Import ListNotations.
Local Open Scope Z_scope.

(** * The class, arrays as values *)

(** ** Results and exceptions *)

Inductive error : Type :=
  | InvalidInput     (* "Can only create Binary from integers." *)
  | WidthMismatch    (* "Bit mismatch (a = .., b = ..)" *)
  | InvalidWidth     (* "Need to extend to a larger number of bits (..)" *)
  | NotABitVector    (* "Not an instance of Binary" *)
  | TypeError.       (* raised by the language, not by the class: a
                        property or method read on a value without it *)

Inductive result (A : Type) : Type :=
  | Ok (a : A)
  | Throw (e : error).
Arguments Ok {A} a.
Arguments Throw {A} e.

Definition bind {A B} (m : result A) (k : A -> result B) : result B :=
  match m with
  | Ok a => k a
  | Throw e => Throw e
  end.

Declare Scope js_scope.
Delimit Scope js_scope with js.
Notation "'let*' x ':=' m 'in' k" := (bind m (fun x => k))
  (at level 10, x name, m at level 100, k at level 200) : js_scope.
Local Open Scope js_scope.

(** ** Values *)

Record Binary : Type := new_Binary { bits : list Z }.

(** The arguments a caller can pass. *)
Inductive value : Type :=
  | VInt (z : Z)          (* a Number with an integral value *)
  | VNonIntegral          (* any other Number: a fraction, NaN, an infinity *)
  | VBinary (b : Binary)  (* an instance of Binary *)
  | VOther.               (* undefined, a string, a plain object, ... *)

Definition Number_isInteger (v : value) : bool :=
  match v with VInt _ => true | _ => false end.

(** [a.length] *)
Definition len {A} (a : list A) : Z := Z.of_nat (length a).

(** ** Bitwise operators of the language

    An operand is [Some x] or [None] for [undefined] (an index past the
    end of an array); [ToInt32(undefined)] is 0. *)

Definition ToInt32 (o : option Z) : Z :=
  match o with
  | Some x => (x + 2 ^ 31) mod 2 ^ 32 - 2 ^ 31
  | None => 0
  end.

Definition js_xor (a b : option Z) : Z := Z.lxor (ToInt32 a) (ToInt32 b).
Definition js_and (a b : option Z) : Z := Z.land (ToInt32 a) (ToInt32 b).
Definition js_or (a b : option Z) : Z := Z.lor (ToInt32 a) (ToInt32 b).

(** ** Array helpers *)

(** [a1.map((x, i) => fn(x, a2[i]))] *)
Fixpoint combineMap {A B C} (a1 : list A) (a2 : list B)
    (fn : A -> option B -> C) : list C :=
  match a1 with
  | [] => []
  | x :: a1' => fn x (head a2) :: combineMap a1' (tail a2) fn
  end.

(** [combineMap] with a callback that assigns a variable [s] of the
    enclosing function: the callback receives the current value of the
    variable and returns the new one with its result. *)
Fixpoint combineMap_st {S A B C} (a1 : list A) (a2 : list B)
    (fn : S -> A -> option B -> C * S) (s : S) : list C * S :=
  match a1 with
  | [] => ([], s)
  | x :: a1' =>
      let '(y, s1) := fn s x (head a2) in
      let '(ys, s2) := combineMap_st a1' (tail a2) fn s1 in
      (y :: ys, s2)
  end.

(** [[...a].reverse()] *)
Definition reverse {A} (a : list A) : list A := rev a.

(** [a.forEach((x, i) => ...)], the callback assigning a variable [s] of
    the enclosing function. *)
Fixpoint forEach_from {S} (a : list Z) (i : Z) (f : S -> Z -> Z -> S) (s : S) : S :=
  match a with
  | [] => s
  | x :: a' => forEach_from a' (i + 1) f (f s x i)
  end.

Definition forEach {S} (a : list Z) (f : S -> Z -> Z -> S) (s : S) : S :=
  forEach_from a 0 f s.

(** [Array.from({length: n}, () => x)] *)
Definition Array_from (n : Z) (x : Z) : list Z := repeat x (Z.to_nat n).

(** [a.slice(1)] *)
Definition slice1 {A} (a : list A) : list A := tail a.

(** ** The class *)

Definition assertSameNumberOfBits (this other : Binary) : result unit :=
  if negb (len (bits other) =? len (bits this)) then Throw WidthMismatch
  else Ok tt.

Definition assertIsBinary (other : value) : result Binary :=
  match other with
  | VBinary b => Ok b
  | _ => Throw NotABitVector
  end.

(** [Math.floor(Math.log2(n))] where the logarithm is exact; [None] is a
    result that is not finite.  The logarithm of a host is a double, and
    can be one above this floor: see [fromUnsigned_host]. *)
Definition Math_floor_log2 (n : Z) : option Z :=
  if 0 <? n then Some (Z.log2 n) else None.

(** The [while] loop of [fromUnsigned].  The loop variable
    [nearestPowerOfTwo] takes the values k, k-1, ..., 0 and the test fails
    at -1; the recursion is on [nearestPowerOfTwo + 1], the number of
    iterations left, so the loop is total by construction.  [bits.push(x)]
    is [bits ++ [x]]. *)
Fixpoint fromUnsigned_loop (iterations : nat) (numberInProgress : Z)
    (bits : list Z) : list Z :=
  match iterations with
  | O => bits
  | S iterations' =>
      let nearestPowerOfTwo := Z.of_nat iterations' in
      if numberInProgress >=? 2 ^ nearestPowerOfTwo then
        fromUnsigned_loop iterations'
          (numberInProgress - 2 ^ nearestPowerOfTwo) (bits ++ [1])
      else
        fromUnsigned_loop iterations' numberInProgress (bits ++ [0])
  end.

Definition fromUnsigned (v : value) : result Binary :=
  match v with
  | VInt n =>
      if n =? 0 then Ok (new_Binary [0])
      else
        match Math_floor_log2 n with
        | Some nearestPowerOfTwo =>
            Ok (new_Binary
                  (fromUnsigned_loop (Z.to_nat (nearestPowerOfTwo + 1)) n []))
        | None => Ok (new_Binary [])   (* the loop test is false at once *)
        end
  | _ => Throw InvalidInput
  end.

Definition zeroExtend (this : Binary) (nBits : Z) : result Binary :=
  if nBits <=? len (bits this) then Throw InvalidWidth
  else
    let numberExtraZeros := nBits - len (bits this) in
    let zeros := Array_from numberExtraZeros 0 in
    Ok (new_Binary (zeros ++ bits this)).

Definition zeroExtendToMatch (this : Binary) (other : value) : result Binary :=
  let* other := assertIsBinary other in
  zeroExtend this (len (bits other)).

(** The callback of [add]; [carryBit] is the variable it assigns. *)
Definition add_step (carryBit : Z) (a : Z) (b : option Z) : Z * Z :=
  let abSum := js_xor (Some a) b in
  let abCarry := js_and (Some a) b in
  let abSumPlusCarry := js_xor (Some abSum) (Some carryBit) in
  let abSumCarry := js_and (Some abSum) (Some carryBit) in
  (abSumPlusCarry, js_or (Some abCarry) (Some abSumCarry)).

Definition add (this : Binary) (other : value) : result Binary :=
  let* other := assertIsBinary other in
  let* _ := assertSameNumberOfBits this other in
  let '(newBits, carryBit) :=
    combineMap_st (reverse (bits this)) (reverse (bits other)) add_step 0 in
  Ok (new_Binary (carryBit :: reverse newBits)).

Definition and (this : Binary) (other : value) : result Binary :=
  let* other := assertIsBinary other in
  let* _ := assertSameNumberOfBits this other in
  let newBits := combineMap (bits this) (bits other)
                   (fun bit1 bit2 => js_and (Some bit1) bit2) in
  Ok (new_Binary newBits).

Definition or (this : Binary) (other : value) : result Binary :=
  let* other := assertIsBinary other in
  let* _ := assertSameNumberOfBits this other in
  let newBits := combineMap (bits this) (bits other)
                   (fun bit1 bit2 => js_or (Some bit1) bit2) in
  Ok (new_Binary newBits).

Definition xor (this : Binary) (other : value) : result Binary :=
  let* other := assertIsBinary other in
  let* _ := assertSameNumberOfBits this other in
  let newBits := combineMap (bits this) (bits other)
                   (fun bit1 bit2 => js_xor (Some bit1) bit2) in
  Ok (new_Binary newBits).

Definition not (this : Binary) : Binary :=
  new_Binary (map (fun x => if x =? 0 then 1 else 0) (bits this)).

(** The sum is exact here; [Double.toNumber] rounds it as the language
    does. *)
Definition toNumber (this : Binary) : Z :=
  forEach (bits this)
    (fun total bit i =>
       let powerOfTwo := len (bits this) - i - 1 in
       if bit =? 1 then total + 2 ^ powerOfTwo else total)
    0.

Definition toSignedNumber (this : Binary) : result Z :=
  match bits this with
  | 0 :: _ => Ok (toNumber this)
  | _ =>
      let minusOneBits := Array_from (len (bits this)) 1 in
      let minusOne := new_Binary minusOneBits in
      let* sum := add this (VBinary minusOne) in
      let positiveWithCarry := not sum in
      let positiveNumber := new_Binary (slice1 (bits positiveWithCarry)) in
      Ok (- toNumber positiveNumber)
  end.

Definition fromSigned (v : value) : result Binary :=
  match v with
  | VInt n =>
      if n =? 0 then Ok (new_Binary [0])
      else
        let* unsigned := fromUnsigned (VInt (Z.abs n)) in
        let numberOfBits := len (bits unsigned) + 1 in
        let* withZeroSignBit := zeroExtend unsigned numberOfBits in
        if n >? 0 then Ok withZeroSignBit
        else
          let flipped := not withZeroSignBit in
          let* one := fromUnsigned (VInt 1) in
          let* oneExtended := zeroExtend one numberOfBits in
          let* withAddedOne := add flipped (VBinary oneExtended) in
          Ok (new_Binary (slice1 (bits withAddedOne)))
  | _ => Throw InvalidInput
  end.

(** ** Well-formed bit arrays and their unsigned value *)

Definition is_bit (x : Z) : bool := (x =? 0) || (x =? 1).

(** Every element is 0 or 1. *)
Definition all_bits (a : list Z) : bool := forallb is_bit a.

(** The sum that [toNumber] computes, by recursion on the array: the
    element in front of [a'] has place value [2 ^ len a']. *)
Fixpoint place_sum (a : list Z) : Z :=
  match a with
  | [] => 0
  | x :: a' => (if x =? 1 then 2 ^ len a' else 0) + place_sum a'
  end.

(** The value of an array read least-significant bit first. *)
Fixpoint lsb_sum (a : list Z) : Z :=
  match a with
  | [] => 0
  | x :: a' => x + 2 * lsb_sum a'
  end.

(** [x => x === 0 ? 1 : 0] *)
Definition flip (x : Z) : Z := if x =? 0 then 1 else 0.

(** * The class over a store

    Arrays and instances of Binary are objects in a store, and a variable
    or a property holds a reference to one.  [Array.prototype.reverse]
    writes to the array it is called on; [map], [slice], [Array.from], an
    array literal and [new] make a new object.  [map] and [forEach] read
    the elements of their array when they start: no callback of the file
    writes to an array.  A callback that assigns a variable of the
    enclosing function receives its value and returns the new one, as in
    [combineMap_st]. *)

Module Store.

(** A reference is a position in the store. *)
Abbreviation loc := nat.

Inductive cell : Type :=
  | ArrayCell (elems : list Z)   (* an array and its elements *)
  | BinaryCell (bits : loc)      (* an instance of Binary and its [bits] *)
  | OtherCell.                   (* any other object *)

(** The store is the list of its objects. *)
Abbreviation store := (list cell).

(** What a method receives and returns. *)
Inductive val : Type :=
  | Num (z : Z)
  | Ref (l : loc)
  | Undefined.

(** A computation: from the store before to the store after and either
    the value returned or the error thrown. *)
Definition M (A : Type) : Type := store -> store * result A.

Definition ret {A} (a : A) : M A := fun h => (h, Ok a).

Definition throw {A} (e : error) : M A := fun h => (h, Throw e).

Definition bindM {A B} (m : M A) (k : A -> M B) : M B :=
  fun h =>
    match m h with
    | (h1, Ok a) => k a h1
    | (h1, Throw e) => (h1, Throw e)
    end.

Declare Scope store_scope.
Delimit Scope store_scope with store.
Notation "x <- m ;; k" := (bindM m (fun x => k))
  (at level 100, m at next level, right associativity) : store_scope.
Local Open Scope store_scope.

(** *** Reads *)

(** The elements of the array at [a]. *)
Definition get_elems (a : loc) : M (list Z) :=
  fun h =>
    match h !! a with
    | Some (ArrayCell l) => (h, Ok l)
    | _ => (h, Throw TypeError)
    end.

(** [a.length] *)
Definition get_length (a : loc) : M Z :=
  l <- get_elems a ;; ret (len l).

(** [a[i]] *)
Definition get_index (a : loc) (i : nat) : M (option Z) :=
  l <- get_elems a ;; ret (l !! i).

(** [o.bits] *)
Definition get_bits (o : loc) : M loc :=
  fun h =>
    match h !! o with
    | Some (BinaryCell a) => (h, Ok a)
    | _ => (h, Throw TypeError)
    end.

(** *** Allocation and writes *)

(** A new array with the elements [l]. *)
Definition new_array (l : list Z) : M loc :=
  fun h => (h ++ [ArrayCell l], Ok (length h)).

(** [new Binary(bits)]: the constructor stores the reference. *)
Definition new_Binary (bits : loc) : M loc :=
  fun h => (h ++ [BinaryCell bits], Ok (length h)).

(** [a.reverse()]: reverses the array at [a] in place and returns [a]. *)
Definition Array_prototype_reverse (a : loc) : M loc :=
  fun h =>
    match h !! a with
    | Some (ArrayCell l) => (<[a := ArrayCell (rev l)]> h, Ok a)
    | _ => (h, Throw TypeError)
    end.

(** [Array.from({length: n}, () => x)] *)
Definition Array_from (n : Z) (x : Z) : M loc :=
  new_array (repeat x (Z.to_nat n)).

(** [a.slice(1)] *)
Definition slice1 (a : loc) : M loc :=
  l <- get_elems a ;; new_array (tail l).

(** The callback applied to the elements [l], the first at index [i]. *)
Fixpoint map_elems {S} (l : list Z) (i : nat)
    (f : S -> Z -> nat -> M (Z * S)) (s : S) : M (list Z * S) :=
  match l with
  | [] => ret ([], s)
  | x :: l' =>
      p <- f s x i ;;
      q <- map_elems l' (Datatypes.S i) f (snd p) ;;
      ret (fst p :: fst q, snd q)
  end.

(** [a.map((x, i) => ...)] *)
Definition Array_prototype_map {S} (a : loc)
    (f : S -> Z -> nat -> M (Z * S)) (s : S) : M (loc * S) :=
  l <- get_elems a ;;
  q <- map_elems l 0%nat f s ;;
  r <- new_array (fst q) ;;
  ret (r, snd q).

Fixpoint forEach_elems {S} (l : list Z) (i : nat)
    (f : S -> Z -> nat -> M S) (s : S) : M S :=
  match l with
  | [] => ret s
  | x :: l' => s1 <- f s x i ;; forEach_elems l' (Datatypes.S i) f s1
  end.

(** [a.forEach((x, i) => ...)] *)
Definition Array_prototype_forEach {S} (a : loc)
    (f : S -> Z -> nat -> M S) (s : S) : M S :=
  l <- get_elems a ;; forEach_elems l 0%nat f s.

(** *** The two helpers of the file *)

(** [a1.map((x, i) => fn(x, a2[i]))] *)
Definition combineMap {S} (a1 a2 : loc)
    (fn : S -> Z -> option Z -> Z * S) (s : S) : M (loc * S) :=
  Array_prototype_map a1
    (fun s x i => y <- get_index a2 i ;; ret (fn s x y)) s.

(** [[...a].reverse()]: the copy is reversed, not [a]. *)
Definition reverse (a : loc) : M loc :=
  l <- get_elems a ;;
  copy <- new_array l ;;
  Array_prototype_reverse copy.

(** *** The methods *)

Definition assertSameNumberOfBits (this other : loc) : M unit :=
  otherBits <- get_bits other ;;
  otherLength <- get_length otherBits ;;
  thisBits <- get_bits this ;;
  thisLength <- get_length thisBits ;;
  if negb (otherLength =? thisLength) then throw WidthMismatch else ret tt.

(** Returns the reference that was tested. *)
Definition assertIsBinary (other : val) : M loc :=
  match other with
  | Ref o =>
      fun h =>
        match h !! o with
        | Some (BinaryCell _) => (h, Ok o)
        | _ => (h, Throw NotABitVector)
        end
  | _ => throw NotABitVector
  end.

Definition zeroExtend (this : loc) (nBits : Z) : M loc :=
  thisBits <- get_bits this ;;
  thisLength <- get_length thisBits ;;
  if nBits <=? thisLength then throw InvalidWidth
  else
    thisBits <- get_bits this ;;
    thisLength <- get_length thisBits ;;
    let numberExtraZeros := nBits - thisLength in
    zeros <- Array_from numberExtraZeros 0 ;;
    zerosElems <- get_elems zeros ;;
    thisBits <- get_bits this ;;
    thisElems <- get_elems thisBits ;;
    extended <- new_array (zerosElems ++ thisElems) ;;
    new_Binary extended.

Definition zeroExtendToMatch (this : loc) (other : val) : M loc :=
  other <- assertIsBinary other ;;
  otherBits <- get_bits other ;;
  otherLength <- get_length otherBits ;;
  zeroExtend this otherLength.

Definition add (this : loc) (other : val) : M loc :=
  other <- assertIsBinary other ;;
  _ <- assertSameNumberOfBits this other ;;
  thisBits <- get_bits this ;;
  thisReversed <- reverse thisBits ;;
  otherBits <- get_bits other ;;
  otherReversed <- reverse otherBits ;;
  p <- combineMap thisReversed otherReversed add_step 0 ;;
  let newBits := fst p in
  let carryBit := snd p in
  newReversed <- reverse newBits ;;
  newElems <- get_elems newReversed ;;
  result <- new_array (carryBit :: newElems) ;;
  new_Binary result.

(** [and], [or] and [xor] differ in the operator only. *)
Definition bitwise (op : option Z -> option Z -> Z) (this : loc) (other : val)
    : M loc :=
  other <- assertIsBinary other ;;
  _ <- assertSameNumberOfBits this other ;;
  thisBits <- get_bits this ;;
  otherBits <- get_bits other ;;
  p <- combineMap thisBits otherBits
         (fun (_ : unit) bit1 bit2 => (op (Some bit1) bit2, tt)) tt ;;
  new_Binary (fst p).

Definition and : loc -> val -> M loc := bitwise js_and.
Definition or : loc -> val -> M loc := bitwise js_or.
Definition xor : loc -> val -> M loc := bitwise js_xor.

Definition not (this : loc) : M loc :=
  thisBits <- get_bits this ;;
  p <- Array_prototype_map thisBits
         (fun (_ : unit) x _ => ret (if x =? 0 then 1 else 0, tt)) tt ;;
  new_Binary (fst p).

Definition toNumber (this : loc) : M Z :=
  thisBits <- get_bits this ;;
  Array_prototype_forEach thisBits
    (fun total bit i =>
       thisBits <- get_bits this ;;
       thisLength <- get_length thisBits ;;
       let powerOfTwo := thisLength - Z.of_nat i - 1 in
       ret (if bit =? 1 then total + 2 ^ powerOfTwo else total))
    0.

(** The statements of [toSignedNumber] after the test of the sign bit. *)
Definition toSignedNumber_negative (this : loc) : M Z :=
  thisBits <- get_bits this ;;
  thisLength <- get_length thisBits ;;
  minusOneBits <- Array_from thisLength 1 ;;
  minusOne <- new_Binary minusOneBits ;;
  sum <- add this (Ref minusOne) ;;
  positiveWithCarry <- not sum ;;
  carryBits <- get_bits positiveWithCarry ;;
  sliced <- slice1 carryBits ;;
  positiveNumber <- new_Binary sliced ;;
  n <- toNumber positiveNumber ;;
  ret (- n).

Definition toSignedNumber (this : loc) : M Z :=
  thisBits <- get_bits this ;;
  first <- get_index thisBits 0 ;;
  match first with
  | Some 0 => toNumber this
  | _ => toSignedNumber_negative this
  end.

(** *** Every method, called on a receiver *)

Inductive method : Type :=
  | Add (other : val)
  | And (other : val)
  | Or (other : val)
  | Xor (other : val)
  | Not
  | ZeroExtend (nBits : Z)
  | ZeroExtendToMatch (other : val)
  | ToNumber
  | ToSignedNumber.

Definition returns_ref (m : M loc) : M val := r <- m ;; ret (Ref r).
Definition returns_num (m : M Z) : M val := n <- m ;; ret (Num n).

Definition call (m : method) (this : loc) : M val :=
  match m with
  | Add other => returns_ref (add this other)
  | And other => returns_ref (and this other)
  | Or other => returns_ref (or this other)
  | Xor other => returns_ref (xor this other)
  | Not => returns_ref (not this)
  | ZeroExtend nBits => returns_ref (zeroExtend this nBits)
  | ZeroExtendToMatch other => returns_ref (zeroExtendToMatch this other)
  | ToNumber => returns_num (toNumber this)
  | ToSignedNumber => returns_num (toSignedNumber this)
  end.

(** The bit sequence of the object at [o], when it is an instance of
    Binary whose [bits] is an array. *)
Definition bits_of (h : store) (o : loc) : option (list Z) :=
  match h !! o with
  | Some (BinaryCell a) =>
      match h !! a with
      | Some (ArrayCell l) => Some l
      | _ => None
      end
  | _ => None
  end.

(** A computation that adds objects to the store and leaves the objects
    that were there as they were, whatever it returns or throws. *)
Definition appends {A} (m : M A) : Prop :=
  forall h, exists ext, fst (m h) = h ++ ext.

(** A computation that, besides, returns a value [x] from which [g]
    takes one of the objects it added. *)
Definition allocates {A} (g : A -> loc) (m : M A) : Prop :=
  forall h, exists ext,
    fst (m h) = h ++ ext /\
    forall x, snd (m h) = Ok x -> (length h <= g x < length (h ++ ext))%nat.

(** A computation that, besides, returns an instance of Binary that it
    added and whose [bits] is an array that it added. *)
Definition returns_new_Binary (m : M loc) : Prop :=
  forall h, exists ext,
    fst (m h) = h ++ ext /\
    forall r, snd (m h) = Ok r ->
      (length h <= r)%nat /\
      exists a, (h ++ ext) !! r = Some (BinaryCell a) /\ (length h <= a)%nat.

End Store.

(** * The logarithm of the host

    [Math.log2] is a function of the host, and the language lets the host
    approximate it.  [fromUnsigned] and [fromSigned] are repeated here with
    [Math.floor(Math.log2(n))] as a parameter; with [Math_floor_log2] for
    the parameter they are the definitions above.  The loop itself is as
    above: the powers [2**e] it compares with and subtracts are doubles,
    and what it subtracts them from is [n] without its leading bits. *)

Section Host.

(** [Math.floor(Math.log2(n))] as the host computes it; [None] is a
    result that is not finite. *)
Variable host_floor_log2 : Z -> option Z.

Definition fromUnsigned_host (v : value) : result Binary :=
  match v with
  | VInt n =>
      if n =? 0 then Ok (new_Binary [0])
      else
        match host_floor_log2 n with
        | Some nearestPowerOfTwo =>
            Ok (new_Binary
                  (fromUnsigned_loop (Z.to_nat (nearestPowerOfTwo + 1)) n []))
        | None => Ok (new_Binary [])
        end
  | _ => Throw InvalidInput
  end.

Definition fromSigned_host (v : value) : result Binary :=
  match v with
  | VInt n =>
      if n =? 0 then Ok (new_Binary [0])
      else
        let* unsigned := fromUnsigned_host (VInt (Z.abs n)) in
        let numberOfBits := len (bits unsigned) + 1 in
        let* withZeroSignBit := zeroExtend unsigned numberOfBits in
        if n >? 0 then Ok withZeroSignBit
        else
          let flipped := not withZeroSignBit in
          let* one := fromUnsigned_host (VInt 1) in
          let* oneExtended := zeroExtend one numberOfBits in
          let* withAddedOne := add flipped (VBinary oneExtended) in
          Ok (new_Binary (slice1 (bits withAddedOne)))
  | _ => Throw InvalidInput
  end.

End Host.

(** * Numbers as doubles

    A Number is a double.  [toNumber] and [toSignedNumber] are repeated
    here with their sums as the language computes them: each [+=] rounds
    to the nearest double.  Every Number that these two methods handle is
    an integer or an infinity. *)

Module Double.

Inductive number : Type :=
  | Finite (z : Z)     (* a double whose value is the integer [z] *)
  | Infinity
  | NegInfinity
  | NaN.

(** The double nearest to the integer [z]: 53 significant bits, a tie
    goes to the even neighbour, and what rounds to 2^1024 or more in
    magnitude is an infinity. *)
Definition round (z : Z) : number :=
  let m := Z.abs z in
  if m <? 2 ^ 53 then Finite z
  else
    let e := Z.log2 m - 52 in
    let q := m / 2 ^ e in
    let r := m mod 2 ^ e in
    let half := 2 ^ (e - 1) in
    let q' := if r <? half then q
              else if half <? r then q + 1
              else if Z.even q then q else q + 1 in
    let m' := q' * 2 ^ e in
    if 2 ^ 1024 <=? m' then (if z <? 0 then NegInfinity else Infinity)
    else Finite (Z.sgn z * m').

(** [x + y] *)
Definition plus (x y : number) : number :=
  match x, y with
  | NaN, _ | _, NaN => NaN
  | Finite a, Finite b => round (a + b)
  | Infinity, NegInfinity | NegInfinity, Infinity => NaN
  | Infinity, _ | _, Infinity => Infinity
  | NegInfinity, _ | _, NegInfinity => NegInfinity
  end.

(** [- x]; the two zeros are one number here, as they are for [===]. *)
Definition opp (x : number) : number :=
  match x with
  | Finite a => Finite (- a)
  | Infinity => NegInfinity
  | NegInfinity => Infinity
  | NaN => NaN
  end.

(** [x - y] *)
Definition minus (x y : number) : number := plus x (opp y).

(** [2 ** p] for an integer [p] that is not negative. *)
Definition pow2 (p : Z) : number := round (2 ^ p).

(** [toNumber()]; the exponent [this.bits.length - i - 1] is never
    negative. *)
Definition toNumber (this : Binary) : number :=
  forEach (bits this)
    (fun total bit i =>
       let powerOfTwo := len (bits this) - i - 1 in
       if bit =? 1 then plus total (pow2 powerOfTwo) else total)
    (Finite 0).

(** [toSignedNumber()] *)
Definition toSignedNumber (this : Binary) : result number :=
  match bits this with
  | 0 :: _ => Ok (toNumber this)
  | _ =>
      let minusOneBits := Array_from (len (bits this)) 1 in
      let minusOne := new_Binary minusOneBits in
      let* sum := add this (VBinary minusOne) in
      let positiveWithCarry := not sum in
      let positiveNumber := new_Binary (slice1 (bits positiveWithCarry)) in
      Ok (opp (toNumber positiveNumber))
  end.

End Double.

(** * Part I: conversions and operations *)

(** The scenarios listed at the end of the source file. *)
Example test_toNumber : toNumber (new_Binary [1;1;0;0]) = 12.
Proof. reflexivity. Qed.

Example test_and :
  and (new_Binary [1;0;1;1]) (VBinary (new_Binary [1;1;0;1])) = Ok (new_Binary [1;0;0;1]).
Proof. reflexivity. Qed.

Example test_or :
  or (new_Binary [1;0;1;1]) (VBinary (new_Binary [1;1;0;1])) = Ok (new_Binary [1;1;1;1]).
Proof. reflexivity. Qed.

Example test_xor :
  xor (new_Binary [1;0;1;1]) (VBinary (new_Binary [1;1;0;1])) = Ok (new_Binary [0;1;1;0]).
Proof. reflexivity. Qed.

Example test_not : not (new_Binary [1;0;1;1]) = new_Binary [0;1;0;0].
Proof. reflexivity. Qed.

Example test_fromUnsigned : fromUnsigned (VInt 10) = Ok (new_Binary [1;0;1;0]).
Proof. reflexivity. Qed.

Example test_add :
  (let* a := fromUnsigned (VInt 11) in
   let* b5 := fromUnsigned (VInt 5) in
   let* b := zeroExtendToMatch b5 (VBinary a) in
   add a (VBinary b)) = Ok (new_Binary [1;0;0;0;0]).
Proof. reflexivity. Qed.

Example test_fromSigned : fromSigned (VInt (-5)) = Ok (new_Binary [1;0;1;1]).
Proof. reflexivity. Qed.

Example test_toSignedNumber : toSignedNumber (new_Binary [1;0;1;1]) = Ok (-5).
Proof. reflexivity. Qed.

Section BitArrays.

Implicit Types (a b : list Z) (x y c : Z).

Lemma len_nil : len (@nil Z) = 0.
Proof. reflexivity. Qed.

Lemma len_cons x a : len (x :: a) = len a + 1.
Proof. unfold len. cbn [length]. lia. Qed.

Lemma len_app a b : len (a ++ b) = len a + len b.
Proof. unfold len. rewrite length_app. lia. Qed.

Lemma len_nonneg a : 0 <= len a.
Proof. unfold len. lia. Qed.

Lemma len_rev a : len (rev a) = len a.
Proof. unfold len. now rewrite length_rev. Qed.

Lemma len_repeat x (n : nat) : len (repeat x n) = Z.of_nat n.
Proof. unfold len. now rewrite repeat_length. Qed.

Lemma len_map (f : Z -> Z) a : len (map f a) = len a.
Proof. unfold len. now rewrite length_map. Qed.

Lemma pow2_len_pos a : 0 < 2 ^ len a.
Proof. apply Z.pow_pos_nonneg; [lia | apply len_nonneg]. Qed.

Lemma pow2_len_cons x a : 2 ^ len (x :: a) = 2 * 2 ^ len a.
Proof.
  rewrite len_cons, Z.pow_add_r by (pose proof (len_nonneg a); lia).
  rewrite Z.pow_1_r. lia.
Qed.

Lemma pow2_len_app a b : 2 ^ len (a ++ b) = 2 ^ len a * 2 ^ len b.
Proof. rewrite len_app. apply Z.pow_add_r; apply len_nonneg. Qed.

Lemma is_bit_cases x : is_bit x = true <-> x = 0 \/ x = 1.
Proof. unfold is_bit. rewrite orb_true_iff, !Z.eqb_eq. tauto. Qed.

Lemma all_bits_cons x a :
  all_bits (x :: a) = true <-> (x = 0 \/ x = 1) /\ all_bits a = true.
Proof.
  unfold all_bits. cbn [forallb]. rewrite andb_true_iff, is_bit_cases. tauto.
Qed.

Lemma all_bits_app a b :
  all_bits (a ++ b) = true <-> all_bits a = true /\ all_bits b = true.
Proof. unfold all_bits. rewrite forallb_app, andb_true_iff. tauto. Qed.

Lemma all_bits_rev a : all_bits (rev a) = all_bits a.
Proof.
  induction a as [|x a IH]; [reflexivity|].
  cbn [rev]. unfold all_bits in *. rewrite forallb_app, IH. cbn [forallb].
  rewrite andb_true_r. apply andb_comm.
Qed.

Lemma all_bits_repeat x (n : nat) : is_bit x = true -> all_bits (repeat x n) = true.
Proof.
  intros Hx. induction n as [|n IH]; [reflexivity|].
  cbn [repeat]. apply all_bits_cons. split; [now apply is_bit_cases | exact IH].
Qed.

Lemma all_bits_map_flip a : all_bits (map flip a) = true.
Proof.
  induction a as [|x a IH]; [reflexivity|].
  cbn [map]. apply all_bits_cons. split; [|exact IH].
  unfold flip. destruct (x =? 0); auto.
Qed.

(** *** The unsigned value *)

Lemma place_sum_bounds a : 0 <= place_sum a < 2 ^ len a.
Proof.
  induction a as [|x a IH]; [cbn [place_sum]; rewrite len_nil; lia|].
  cbn [place_sum]. rewrite pow2_len_cons. pose proof (pow2_len_pos a).
  destruct (x =? 1); lia.
Qed.

Lemma place_sum_app a b :
  place_sum (a ++ b) = place_sum a * 2 ^ len b + place_sum b.
Proof.
  induction a as [|x a IH]; [cbn [app place_sum]; lia|].
  cbn [app place_sum]. rewrite IH, pow2_len_app.
  destruct (x =? 1); lia.
Qed.

Lemma place_sum_bit_cons x a :
  x = 0 \/ x = 1 -> place_sum (x :: a) = x * 2 ^ len a + place_sum a.
Proof. intros [-> | ->]; cbn [place_sum]; simpl (_ =? _); cbv iota; lia. Qed.

Lemma place_sum_repeat_0 (n : nat) : place_sum (repeat 0 n) = 0.
Proof. induction n as [|n IH]; [reflexivity|]. cbn [repeat place_sum]. simpl (_ =? _). cbv iota. lia. Qed.

Lemma place_sum_repeat_1 (n : nat) : place_sum (repeat 1 n) = 2 ^ Z.of_nat n - 1.
Proof.
  induction n as [|n IH]; [reflexivity|].
  cbn [repeat place_sum]. simpl (_ =? _). cbv iota. rewrite IH, len_repeat.
  rewrite Nat2Z.inj_succ, Z.pow_succ_r by lia. lia.
Qed.

Lemma place_sum_map_flip a :
  all_bits a = true -> place_sum (map flip a) = 2 ^ len a - 1 - place_sum a.
Proof.
  induction a as [|x a IH]; intros Ha; [reflexivity|].
  apply all_bits_cons in Ha as [Hx Ha]. specialize (IH Ha).
  cbn [map]. rewrite pow2_len_cons.
  cbn [place_sum]. rewrite IH, len_map.
  destruct Hx as [-> | ->]; cbn; lia.
Qed.

Lemma place_sum_rev a : all_bits a = true -> place_sum (rev a) = lsb_sum a.
Proof.
  induction a as [|x a IH]; intros Ha; [reflexivity|].
  apply all_bits_cons in Ha as [Hx Ha].
  cbn [rev lsb_sum]. rewrite place_sum_app, IH by exact Ha.
  rewrite place_sum_bit_cons by exact Hx.
  change (len [x]) with 1. change (len (@nil Z)) with 0. cbn [place_sum]. lia.
Qed.

(** The leading bit of a well-formed array is set exactly when the value
    reaches the upper half of the range. *)
Lemma place_sum_msb x a :
  all_bits (x :: a) = true ->
  (x = 1 <-> 2 ^ len a <= place_sum (x :: a)).
Proof.
  intros Ha. apply all_bits_cons in Ha as [Hx _].
  pose proof (place_sum_bounds a). rewrite place_sum_bit_cons by exact Hx.
  destruct Hx as [-> | ->]; lia.
Qed.

(** Two well-formed arrays of one length and one value are equal. *)
Lemma place_sum_inj a : forall b,
  all_bits a = true -> all_bits b = true -> length a = length b ->
  place_sum a = place_sum b -> a = b.
Proof.
  induction a as [|x a IH]; intros [|y b] Ha Hb Hlen Hv; try discriminate; [reflexivity|].
  apply all_bits_cons in Ha as [Hx Ha]. apply all_bits_cons in Hb as [Hy Hb].
  injection Hlen as Hlen.
  rewrite !place_sum_bit_cons in Hv by assumption.
  assert (Hl : len b = len a) by (unfold len; lia). rewrite Hl in Hv.
  pose proof (place_sum_bounds a). pose proof (place_sum_bounds b).
  rewrite Hl in *.
  assert (x = y) by (destruct Hx as [-> | ->], Hy as [-> | ->]; lia).
  subst y. f_equal. apply IH; auto. lia.
Qed.

(** *** [toNumber] *)

Lemma forEach_from_place_sum a : forall (L i total : Z),
  L = i + len a ->
  forEach_from a i
    (fun total bit i => if bit =? 1 then total + 2 ^ (L - i - 1) else total)
    total
  = total + place_sum a.
Proof.
  induction a as [|x a IH]; intros L i total HL; [cbn [forEach_from place_sum]; lia|].
  cbn [forEach_from place_sum]. rewrite len_cons in HL.
  rewrite IH by lia.
  replace (L - i - 1) with (len a) by lia.
  destruct (x =? 1); lia.
Qed.

Lemma toNumber_place_sum (this : Binary) : toNumber this = place_sum (bits this).
Proof.
  unfold toNumber, forEach. rewrite forEach_from_place_sum; [lia | lia].
Qed.

End BitArrays.

(** ** Ripple-carry addition *)

Section Addition.

Implicit Types (a b : list Z) (x y c : Z).

(** On bits the callback of [add] is a full adder. *)
Lemma add_step_full_adder c x y :
  (c = 0 \/ c = 1) -> (x = 0 \/ x = 1) -> (y = 0 \/ y = 1) ->
  add_step c x (Some y) = ((x + y + c) mod 2, (x + y + c) / 2).
Proof. intros [-> | ->] [-> | ->] [-> | ->]; reflexivity. Qed.

(** The loop of [add] over the reversed arrays: the result bits and the
    last carry hold the sum of the operands and the first carry. *)
Lemma combineMap_st_add_step a : forall b c,
  all_bits a = true -> all_bits b = true -> length a = length b ->
  (c = 0 \/ c = 1) ->
  exists s c',
    combineMap_st a b add_step c = (s, c') /\
    length s = length a /\ all_bits s = true /\ (c' = 0 \/ c' = 1) /\
    lsb_sum s + 2 ^ len a * c' = lsb_sum a + lsb_sum b + c.
Proof.
  induction a as [|x a IH]; intros [|y b] c Ha Hb Hlen Hc; try discriminate.
  - exists [], c. cbn [combineMap_st lsb_sum]. rewrite len_nil.
    repeat split; auto. lia.
  - apply all_bits_cons in Ha as [Hx Ha]. apply all_bits_cons in Hb as [Hy Hb].
    injection Hlen as Hlen.
    cbn [combineMap_st head tail]. rewrite add_step_full_adder by assumption.
    assert (Hc1 : (x + y + c) / 2 = 0 \/ (x + y + c) / 2 = 1).
    { destruct Hx as [-> | ->], Hy as [-> | ->], Hc as [-> | ->]; cbn; auto. }
    destruct (IH b _ Ha Hb Hlen Hc1) as (s & c' & Hrun & Hls & Hs & Hc' & Hsum).
    rewrite Hrun. exists ((x + y + c) mod 2 :: s), c'.
    split; [reflexivity|]. split; [cbn [length]; congruence|].
    split.
    { apply all_bits_cons. split; [|exact Hs].
      destruct Hx as [-> | ->], Hy as [-> | ->], Hc as [-> | ->]; cbn; auto. }
    split; [exact Hc'|].
    cbn [lsb_sum]. rewrite pow2_len_cons.
    pose proof (Z.div_mod (x + y + c) 2 ltac:(lia)). lia.
Qed.

(** [add] on well-formed operands of one width: the result is the last
    carry in front of as many sum bits as the operands have, and carry
    and sum bits together hold the exact sum. *)
Lemma add_carry_sum (this other : Binary) :
  all_bits (bits this) = true -> all_bits (bits other) = true ->
  length (bits this) = length (bits other) ->
  exists c s,
    add this (VBinary other) = Ok (new_Binary (c :: s)) /\
    length s = length (bits this) /\ all_bits s = true /\ (c = 0 \/ c = 1) /\
    c * 2 ^ len (bits this) + place_sum s
    = place_sum (bits this) + place_sum (bits other).
Proof.
  intros Ha Hb Hlen. unfold add, assertIsBinary, assertSameNumberOfBits, reverse.
  cbn [bind]. unfold len at 1 2. rewrite <- Hlen, Z.eqb_refl. cbn [negb bind].
  destruct (combineMap_st_add_step (rev (bits this)) (rev (bits other)) 0)
    as (s & c & Hrun & Hls & Hs & Hc & Hsum).
  { now rewrite all_bits_rev. } { now rewrite all_bits_rev. }
  { now rewrite !length_rev. } { now left. }
  rewrite Hrun. exists c, (rev s).
  split; [reflexivity|]. rewrite length_rev in *.
  split; [exact Hls|]. split; [now rewrite all_bits_rev|]. split; [exact Hc|].
  rewrite len_rev in Hsum.
  rewrite place_sum_rev by exact Hs.
  rewrite <- (rev_involutive (bits this)) at 2.
  rewrite <- (rev_involutive (bits other)).
  rewrite !place_sum_rev by now rewrite all_bits_rev.
  lia.
Qed.

End Addition.

(** ** [fromUnsigned] *)

Section FromUnsigned.

Implicit Types (a b acc : list Z) (n : Z) (k : nat).

(** The bits pushed by the loop do not depend on those already there. *)
Lemma fromUnsigned_loop_acc k : forall n acc,
  fromUnsigned_loop k n acc = acc ++ fromUnsigned_loop k n [].
Proof.
  induction k as [|k IH]; intros n acc; cbn [fromUnsigned_loop].
  - now rewrite app_nil_r.
  - destruct (n >=? 2 ^ Z.of_nat k).
    + rewrite (IH _ (acc ++ [1])), (IH _ ([] ++ [1])), <- app_assoc. reflexivity.
    + rewrite (IH _ (acc ++ [0])), (IH _ ([] ++ [0])), <- app_assoc. reflexivity.
Qed.

Lemma fromUnsigned_loop_length k n : length (fromUnsigned_loop k n []) = k.
Proof.
  revert n. induction k as [|k IH]; intros n; cbn [fromUnsigned_loop]; [reflexivity|].
  destruct (n >=? 2 ^ Z.of_nat k); rewrite fromUnsigned_loop_acc, length_app, IH;
    cbn [app length]; lia.
Qed.

Lemma fromUnsigned_loop_all_bits k n : all_bits (fromUnsigned_loop k n []) = true.
Proof.
  revert n. induction k as [|k IH]; intros n; cbn [fromUnsigned_loop]; [reflexivity|].
  destruct (n >=? 2 ^ Z.of_nat k); rewrite fromUnsigned_loop_acc;
    apply all_bits_app; split; auto.
Qed.

(** Starting from any exponent that is large enough, the loop writes the
    binary expansion of the number in progress. *)
Lemma fromUnsigned_loop_place_sum k : forall n,
  0 <= n < 2 ^ Z.of_nat k -> place_sum (fromUnsigned_loop k n []) = n.
Proof.
  induction k as [|k IH]; intros n Hn; cbn [fromUnsigned_loop].
  - cbn in Hn. cbn [place_sum]. lia.
  - rewrite Nat2Z.inj_succ, Z.pow_succ_r in Hn by lia.
    destruct (n >=? 2 ^ Z.of_nat k) eqn:Hge;
      rewrite fromUnsigned_loop_acc; cbn [app]; cbn [place_sum];
      unfold len; rewrite fromUnsigned_loop_length; simpl (_ =? _); cbv iota;
      rewrite IH; lia.
Qed.

(** The first iteration pushes 1 when the number reaches the power. *)
Lemma fromUnsigned_loop_head k n :
  2 ^ Z.of_nat k <= n ->
  head (fromUnsigned_loop (S k) n []) = Some 1.
Proof.
  intros Hn. cbn [fromUnsigned_loop].
  destruct (n >=? 2 ^ Z.of_nat k) eqn:Hge; [|lia].
  rewrite fromUnsigned_loop_acc. reflexivity.
Qed.

Lemma Math_floor_log2_pos n :
  0 < n -> Math_floor_log2 n = Some (Z.log2 n).
Proof. intros Hn. unfold Math_floor_log2. destruct (0 <? n) eqn:E; [reflexivity | lia]. Qed.

(** What [fromUnsigned] returns for a positive integer. *)
Lemma fromUnsigned_pos n :
  0 < n ->
  fromUnsigned (VInt n)
  = Ok (new_Binary (fromUnsigned_loop (Z.to_nat (Z.log2 n + 1)) n [])).
Proof.
  intros Hn. unfold fromUnsigned.
  destruct (n =? 0) eqn:E; [lia|]. now rewrite Math_floor_log2_pos.
Qed.

Lemma fromUnsigned_nonneg_spec n :
  0 <= n ->
  exists a,
    fromUnsigned (VInt n) = Ok (new_Binary a) /\
    all_bits a = true /\ place_sum a = n /\ len a = Z.log2 n + 1.
Proof.
  intros Hn. destruct (Z.eq_dec n 0) as [-> | Hn0].
  - exists [0]. repeat split.
  - rewrite fromUnsigned_pos by lia.
    pose proof (Z.log2_nonneg n) as Hlog.
    pose proof (Z.log2_spec n ltac:(lia)) as [Hlo Hhi].
    eexists. split; [reflexivity|].
    split; [apply fromUnsigned_loop_all_bits|].
    split.
    + apply fromUnsigned_loop_place_sum. rewrite Z2Nat.id by lia.
      replace (Z.log2 n + 1) with (Z.succ (Z.log2 n)) by lia. lia.
    + unfold len. rewrite fromUnsigned_loop_length. lia.
Qed.

End FromUnsigned.

(** ** [zeroExtend], [not], [toSignedNumber] *)

Section Methods.

Implicit Types (this other : Binary) (a : list Z).

Lemma zeroExtend_grows this (nBits : Z) :
  len (bits this) < nBits ->
  zeroExtend this nBits
  = Ok (new_Binary (repeat 0 (Z.to_nat (nBits - len (bits this))) ++ bits this)).
Proof.
  intros Hw. unfold zeroExtend, Array_from.
  destruct (nBits <=? len (bits this)) eqn:E; [lia | reflexivity].
Qed.

Lemma not_bits this : bits (not this) = map flip (bits this).
Proof. reflexivity. Qed.

Lemma Array_from_len (x : Z) a : length (Array_from (len a) x) = length a.
Proof. unfold Array_from, len. now rewrite Nat2Z.id, repeat_length. Qed.

Lemma place_sum_all_ones a : place_sum (Array_from (len a) 1) = 2 ^ len a - 1.
Proof. unfold Array_from, len. now rewrite Nat2Z.id, place_sum_repeat_1. Qed.

(** The signed value of a well-formed array whose first bit is set. *)
Lemma toSignedNumber_negative a :
  all_bits (1 :: a) = true ->
  toSignedNumber (new_Binary (1 :: a))
  = Ok (place_sum (1 :: a) - 2 ^ len (1 :: a)).
Proof.
  intros Ha. unfold toSignedNumber. cbn [bits].
  destruct (add_carry_sum (new_Binary (1 :: a))
              (new_Binary (Array_from (len (1 :: a)) 1)))
    as (c & s & Hadd & Hls & Hs & Hc & Hsum); cbn [bits] in *.
  { exact Ha. }
  { unfold Array_from. now apply all_bits_repeat. }
  { now rewrite Array_from_len. }
  rewrite Hadd. cbn [bind]. f_equal.
  rewrite toNumber_place_sum. cbn [bits not slice1 map tail].
  rewrite place_sum_all_ones in Hsum.
  rewrite place_sum_map_flip by exact Hs.
  assert (Hl : len s = len (1 :: a)) by (unfold len; now rewrite Hls).
  rewrite Hl.
  pose proof (place_sum_bounds s) as Hbs. rewrite Hl in Hbs.
  pose proof (place_sum_bounds (1 :: a)) as Hba.
  pose proof (proj1 (place_sum_msb 1 a Ha) eq_refl) as Hmsb.
  rewrite pow2_len_cons in *.
  destruct Hc as [-> | ->]; lia.
Qed.

Lemma toSignedNumber_nonnegative a :
  toSignedNumber (new_Binary (0 :: a)) = Ok (place_sum (0 :: a)).
Proof. unfold toSignedNumber. cbn [bits]. now rewrite toNumber_place_sum. Qed.

End Methods.

(** ** [fromSigned] *)

Section FromSigned.

Implicit Types (n : Z) (a : list Z).

Lemma fromUnsigned_one : fromUnsigned (VInt 1) = Ok (new_Binary [1]).
Proof. reflexivity. Qed.

(** A positive integer gets the bits of [fromUnsigned] behind a 0. *)
Lemma fromSigned_pos n :
  0 < n ->
  exists a,
    fromUnsigned (VInt n) = Ok (new_Binary a) /\
    fromSigned (VInt n) = Ok (new_Binary (0 :: a)).
Proof.
  intros Hn. destruct (fromUnsigned_nonneg_spec n ltac:(lia)) as (a & Hu & _).
  exists a. split; [exact Hu|].
  unfold fromSigned. destruct (n =? 0) eqn:E0; [lia|].
  rewrite Z.abs_eq, Hu by lia. cbn [bind bits].
  rewrite zeroExtend_grows by (cbn [bits]; lia). cbn [bind bits].
  replace (len a + 1 - len a) with 1 by lia.
  destruct (n >? 0) eqn:E1; [reflexivity | lia].
Qed.

(** A negative integer gets a well-formed array, one bit wider than the
    bits of its magnitude, whose first bit is set and whose unsigned
    value is the integer plus two to the width. *)
Lemma fromSigned_neg n :
  n < 0 ->
  exists a,
    fromSigned (VInt n) = Ok (new_Binary (1 :: a)) /\
    all_bits (1 :: a) = true /\
    len (1 :: a) = Z.log2 (- n) + 2 /\
    place_sum (1 :: a) = 2 ^ len (1 :: a) + n.
Proof.
  intros Hn.
  destruct (fromUnsigned_nonneg_spec (- n) ltac:(lia)) as (u & Hu & Hbits & Hval & Hlen).
  pose proof (Z.log2_nonneg (- n)) as Hlog.
  unfold fromSigned. destruct (n =? 0) eqn:E0; [lia|].
  rewrite Z.abs_neq, Hu by lia. cbn [bind bits].
  rewrite zeroExtend_grows by (cbn [bits]; lia). cbn [bind bits].
  replace (len u + 1 - len u) with 1 by lia.
  destruct (n >? 0) eqn:E1; [lia|].
  rewrite fromUnsigned_one. cbn [bind].
  rewrite zeroExtend_grows by (cbn [bits]; change (len [1]) with 1; lia).
  cbn [bind bits]. change (len [1]) with 1.
  replace (len u + 1 - 1) with (len u) by lia.
  unfold len at 1. rewrite Nat2Z.id.
  change (repeat 0 (Z.to_nat 1) ++ u) with (0 :: u).
  destruct (add_carry_sum (not (new_Binary (0 :: u)))
              (new_Binary (repeat 0 (length u) ++ [1])))
    as (c & s & Hadd & Hls & Hs & Hc & Hsum).
  { apply all_bits_map_flip. }
  { cbn [bits]. apply all_bits_app. split; [now apply all_bits_repeat | reflexivity]. }
  { cbn [bits not map length]. rewrite length_map, length_app, repeat_length.
    cbn [length]. lia. }
  rewrite Hadd. cbn [bind bits slice1 tail].
  cbn [bits not] in Hsum, Hls. rewrite length_map in Hls.
  rewrite place_sum_app, place_sum_repeat_0, len_map in Hsum.
  rewrite place_sum_map_flip in Hsum
    by (apply all_bits_cons; split; [now left | exact Hbits]).
  rewrite (place_sum_bit_cons 0 u) in Hsum by now left.
  rewrite Hval in Hsum. change (place_sum [1]) with 1 in Hsum.
  pose proof (place_sum_bounds u) as Hbu. rewrite Hval in Hbu.
  pose proof (place_sum_bounds s) as Hbs.
  assert (Hl : len s = len (0 :: u)) by (unfold len; now rewrite Hls).
  rewrite Hl in Hbs. rewrite pow2_len_cons in Hsum, Hbs.
  assert (Hc0 : c = 0) by (destruct Hc as [-> | ->]; lia). subst c.
  destruct s as [|x s]; [discriminate Hls|].
  assert (Hls' : len s = len u) by (cbn [length] in Hls; unfold len; lia).
  assert (Hx : x = 1).
  { apply (place_sum_msb x s Hs). rewrite Hls'. lia. }
  subst x. exists s. split; [reflexivity|]. split; [exact Hs|].
  rewrite pow2_len_cons, len_cons, Hls'. split; lia.
Qed.

End FromSigned.

(** ** Properties of the conversions and operations *)

(** C2. For every non-negative integer [n], [fromUnsigned(n)] returns a
    Binary and [toNumber()] of it is [n]. *)
Theorem fromUnsigned_toNumber (n : Z) :
  0 <= n ->
  exists b, fromUnsigned (VInt n) = Ok b /\ toNumber b = n.
Proof.
  intros Hn. destruct (fromUnsigned_nonneg_spec n Hn) as (a & Hu & _ & Hval & _).
  exists (new_Binary a). split; [exact Hu|].
  now rewrite toNumber_place_sum.
Qed.

Lemma fromUnsigned_toNumber_witness :
  exists b, fromUnsigned (VInt 10) = Ok b /\ toNumber b = 10.
Proof. apply (fromUnsigned_toNumber 10). lia. Defined.

(** C1. For every integer [n], [fromSigned(n)] returns a Binary and
    [toSignedNumber()] of it returns [n]. *)
Theorem fromSigned_toSignedNumber (n : Z) :
  exists b, fromSigned (VInt n) = Ok b /\ toSignedNumber b = Ok n.
Proof.
  destruct (Z.lt_trichotomy n 0) as [Hneg | [-> | Hpos]].
  - destruct (fromSigned_neg n Hneg) as (a & Hs & Hbits & _ & Hval).
    exists (new_Binary (1 :: a)). split; [exact Hs|].
    rewrite toSignedNumber_negative by exact Hbits. f_equal. lia.
  - exists (new_Binary [0]). split; reflexivity.
  - destruct (fromSigned_pos n Hpos) as (a & Hu & Hs).
    destruct (fromUnsigned_nonneg_spec n ltac:(lia)) as (a' & Hu' & _ & Hval & _).
    rewrite Hu in Hu'. injection Hu' as <-.
    exists (new_Binary (0 :: a)). split; [exact Hs|].
    rewrite toSignedNumber_nonnegative. f_equal.
    rewrite place_sum_bit_cons by now left. lia.
Qed.

(** C4, as the code has it. [fromUnsigned(n)] throws the "Can only create
    Binary from integers." error whenever [n] is not an integer, and
    returns no Binary then.  There is no test of the sign: for a negative
    integer [Math.log2] is not a number, the loop test is false at once,
    and a Binary with no bits is returned. *)
Theorem fromUnsigned_rejects_non_integers (v : value) :
  (Number_isInteger v = false -> fromUnsigned v = Throw InvalidInput) /\
  (forall n, v = VInt n -> n < 0 -> fromUnsigned v = Ok (new_Binary [])).
Proof.
  split.
  - destruct v; cbn [Number_isInteger]; intros H; [discriminate H | reflexivity ..].
  - intros n -> Hn. unfold fromUnsigned, Math_floor_log2.
    destruct (n =? 0) eqn:E0; [lia|]. destruct (0 <? n) eqn:E1; [lia | reflexivity].
Qed.

Lemma fromUnsigned_rejects_non_integers_witness :
  fromUnsigned VNonIntegral = Throw InvalidInput /\
  fromUnsigned (VInt (-3)) = Ok (new_Binary []).
Proof.
  split.
  - apply (fromUnsigned_rejects_non_integers VNonIntegral). reflexivity.
  - apply (proj2 (fromUnsigned_rejects_non_integers (VInt (-3))) (-3)); [reflexivity | lia].
Defined.

(** C4 as stated fails at the negative integer -3: a Binary is returned,
    not an error. *)
Lemma fromUnsigned_negative_returns :
  Number_isInteger (VInt (-3)) = true /\ -3 < 0 /\
  fromUnsigned (VInt (-3)) = Ok (new_Binary []) /\
  fromUnsigned (VInt (-3)) <> Throw InvalidInput.
Proof. repeat split. discriminate. Qed.

(** C6. For a Binary [a] and an integer [w] above its width,
    [a.zeroExtend(w)] returns a Binary of width [w] with the [toNumber()]
    of [a].  The elements of [a] need not be bits for this. *)
Theorem zeroExtend_preserves_toNumber (a : Binary) (w : Z) :
  len (bits a) < w ->
  exists r,
    zeroExtend a w = Ok r /\ len (bits r) = w /\ toNumber r = toNumber a.
Proof.
  intros Hw. rewrite zeroExtend_grows by exact Hw.
  eexists. split; [reflexivity|]. cbn [bits].
  split.
  - rewrite len_app, len_repeat. lia.
  - rewrite !toNumber_place_sum. cbn [bits].
    rewrite place_sum_app, place_sum_repeat_0. lia.
Qed.

Lemma zeroExtend_preserves_toNumber_witness :
  exists r,
    zeroExtend (new_Binary [1;0;1]) 8 = Ok r /\ len (bits r) = 8 /\
    toNumber r = toNumber (new_Binary [1;0;1]).
Proof. apply (zeroExtend_preserves_toNumber (new_Binary [1;0;1]) 8). reflexivity. Defined.

(** C7. For Binaries of different widths, [add], [and], [or] and [xor]
    each throw the "Bit mismatch" error and return nothing. *)
Theorem width_mismatch_throws (a b : Binary) :
  len (bits a) <> len (bits b) ->
  add a (VBinary b) = Throw WidthMismatch /\
  and a (VBinary b) = Throw WidthMismatch /\
  or a (VBinary b) = Throw WidthMismatch /\
  xor a (VBinary b) = Throw WidthMismatch.
Proof.
  intros Hne.
  assert (H : assertSameNumberOfBits a b = Throw WidthMismatch).
  { unfold assertSameNumberOfBits.
    destruct (len (bits b) =? len (bits a)) eqn:E; [lia | reflexivity]. }
  unfold add, and, or, xor, assertIsBinary. cbn [bind]. rewrite H.
  repeat split.
Qed.

Lemma width_mismatch_throws_witness :
  add (new_Binary [1;0;1]) (VBinary (new_Binary [1;1])) = Throw WidthMismatch /\
  and (new_Binary [1;0;1]) (VBinary (new_Binary [1;1])) = Throw WidthMismatch /\
  or (new_Binary [1;0;1]) (VBinary (new_Binary [1;1])) = Throw WidthMismatch /\
  xor (new_Binary [1;0;1]) (VBinary (new_Binary [1;1])) = Throw WidthMismatch.
Proof.
  apply (width_mismatch_throws (new_Binary [1;0;1]) (new_Binary [1;1])). discriminate.
Defined.

(** C8. For a Binary and a target width [w] not above its width, equal
    width included, [zeroExtend(w)] throws the "Need to extend to a
    larger number of bits" error. *)
Theorem zeroExtend_not_larger_throws (a : Binary) (w : Z) :
  w <= len (bits a) -> zeroExtend a w = Throw InvalidWidth.
Proof.
  intros Hw. unfold zeroExtend.
  destruct (w <=? len (bits a)) eqn:E; [reflexivity | lia].
Qed.

Lemma zeroExtend_not_larger_throws_witness :
  zeroExtend (new_Binary [1;0;1]) 3 = Throw InvalidWidth /\
  zeroExtend (new_Binary [1;0;1]) 2 = Throw InvalidWidth.
Proof.
  split.
  - apply (zeroExtend_not_larger_throws (new_Binary [1;0;1]) 3). discriminate.
  - apply (zeroExtend_not_larger_throws (new_Binary [1;0;1]) 2). discriminate.
Defined.

(** * Part II: the methods over the store *)

(** ** No method writes to an object that exists *)

Section Frame.

Import Store.
Local Open Scope store_scope.
Local Open Scope nat_scope.

Lemma appends_ret {A} (a : A) : appends (ret a).
Proof. intros h. exists []. cbn. now rewrite app_nil_r. Qed.

Lemma appends_throw {A} (e : error) : appends (@throw A e).
Proof. intros h. exists []. cbn. now rewrite app_nil_r. Qed.

Lemma appends_bind {A B} (m : M A) (k : A -> M B) :
  appends m -> (forall a, appends (k a)) -> appends (bindM m k).
Proof.
  intros Hm Hk h. destruct (Hm h) as [ext1 H1]. unfold bindM.
  destruct (m h) as [h1 [a | e]]; cbn [fst] in H1; subst h1.
  - destruct (Hk a (h ++ ext1)) as [ext2 H2].
    exists (ext1 ++ ext2). now rewrite H2, app_assoc.
  - now exists ext1.
Qed.

Lemma appends_get_elems a : appends (get_elems a).
Proof.
  intros h. exists []. unfold get_elems.
  destruct (h !! a) as [[| |]|]; cbn; now rewrite app_nil_r.
Qed.

Lemma appends_get_bits o : appends (get_bits o).
Proof.
  intros h. exists []. unfold get_bits.
  destruct (h !! o) as [[| |]|]; cbn; now rewrite app_nil_r.
Qed.

Lemma appends_new_array l : appends (new_array l).
Proof. intros h. now exists [ArrayCell l]. Qed.

Lemma appends_new_Binary a : appends (new_Binary a).
Proof. intros h. now exists [BinaryCell a]. Qed.

Lemma appends_assertIsBinary other : appends (assertIsBinary other).
Proof.
  intros h. exists []. destruct other as [z | o |]; cbn; try now rewrite app_nil_r.
  destruct (h !! o) as [[| |]|]; cbn; now rewrite app_nil_r.
Qed.

(** The one write of the file is to the copy that the helper has just
    made: the array passed to [reverse] stays as it is. *)
Lemma appends_reverse a : appends (reverse a).
Proof.
  intros h. unfold reverse, bindM, get_elems, new_array, Array_prototype_reverse.
  destruct (h !! a) as [[l| |]|]; cbn [fst];
    try (exists []; now rewrite app_nil_r).
  exists [ArrayCell (rev l)].
  rewrite list_lookup_middle by reflexivity. cbn [fst].
  rewrite insert_app_r_alt by reflexivity. now rewrite Nat.sub_diag.
Qed.

Create HintDb frame discriminated.
Hint Resolve appends_ret appends_throw appends_get_elems appends_get_bits
  appends_new_array appends_new_Binary appends_assertIsBinary
  appends_reverse : frame.

(** Splits a computation at its binds, tests and pattern matches and
    closes the parts with the lemmas collected so far. *)
Ltac frame :=
  repeat match goal with
    | |- appends (bindM _ _) => apply appends_bind; [| intros ?]
    | |- appends (if ?b then _ else _) => destruct b
    | |- appends (match ?x with _ => _ end) => destruct x
    | |- _ => solve [auto with frame]
    end.

Lemma appends_get_length a : appends (get_length a).
Proof. unfold get_length. frame. Qed.

Lemma appends_get_index a i : appends (get_index a i).
Proof. unfold get_index. frame. Qed.

Lemma appends_Array_from n x : appends (Array_from n x).
Proof. unfold Array_from. frame. Qed.

Lemma appends_slice1 a : appends (slice1 a).
Proof. unfold slice1. frame. Qed.

Hint Resolve appends_get_length appends_get_index appends_Array_from
  appends_slice1 : frame.

Lemma appends_map_elems {S} l (f : S -> Z -> nat -> M (Z * S)) :
  (forall s x i, appends (f s x i)) ->
  forall i s, appends (map_elems l i f s).
Proof.
  intros Hf. induction l as [|x l IH]; intros i s; cbn [map_elems]; frame.
Qed.

Lemma appends_Array_prototype_map {S} a (f : S -> Z -> nat -> M (Z * S)) s :
  (forall s x i, appends (f s x i)) -> appends (Array_prototype_map a f s).
Proof.
  intros Hf. unfold Array_prototype_map.
  pose proof (appends_map_elems (S:=S)) as Hmap. frame.
Qed.

Lemma appends_forEach_elems {S} l (f : S -> Z -> nat -> M S) :
  (forall s x i, appends (f s x i)) ->
  forall i s, appends (forEach_elems l i f s).
Proof.
  intros Hf. induction l as [|x l IH]; intros i s; cbn [forEach_elems]; frame.
Qed.

Lemma appends_Array_prototype_forEach {S} a (f : S -> Z -> nat -> M S) s :
  (forall s x i, appends (f s x i)) -> appends (Array_prototype_forEach a f s).
Proof.
  intros Hf. unfold Array_prototype_forEach.
  pose proof (appends_forEach_elems (S:=S)) as Hfe. frame.
Qed.

Lemma appends_combineMap {S} a1 a2 (fn : S -> Z -> option Z -> Z * S) s :
  appends (combineMap a1 a2 fn s).
Proof.
  unfold combineMap. apply appends_Array_prototype_map. intros. frame.
Qed.

Lemma appends_assertSameNumberOfBits this other :
  appends (assertSameNumberOfBits this other).
Proof. unfold assertSameNumberOfBits. frame. Qed.

Hint Resolve appends_Array_prototype_map appends_Array_prototype_forEach
  appends_combineMap appends_assertSameNumberOfBits : frame.

Lemma appends_zeroExtend this nBits : appends (zeroExtend this nBits).
Proof. unfold zeroExtend. frame. Qed.

Hint Resolve appends_zeroExtend : frame.

Lemma appends_zeroExtendToMatch this other : appends (zeroExtendToMatch this other).
Proof. unfold zeroExtendToMatch. frame. Qed.

Lemma appends_add this other : appends (add this other).
Proof. unfold add. frame. Qed.

Lemma appends_bitwise op this other : appends (bitwise op this other).
Proof. unfold bitwise. frame. Qed.

Lemma appends_not this : appends (not this).
Proof. unfold not. frame. Qed.

Lemma appends_toNumber this : appends (toNumber this).
Proof.
  unfold toNumber. frame. apply appends_Array_prototype_forEach. intros. frame.
Qed.

Hint Resolve appends_zeroExtendToMatch appends_add appends_bitwise
  appends_not appends_toNumber : frame.

Lemma appends_toSignedNumber_negative this :
  appends (toSignedNumber_negative this).
Proof. unfold toSignedNumber_negative. frame. Qed.

Hint Resolve appends_toSignedNumber_negative : frame.

Lemma appends_toSignedNumber this : appends (toSignedNumber this).
Proof. unfold toSignedNumber. frame. Qed.

(** *** The object returned is a new one *)

Lemma allocates_new_array l : allocates (fun r => r) (new_array l).
Proof.
  intros h. exists [ArrayCell l]. cbn. split; [reflexivity|].
  intros r [= <-]. rewrite length_app. cbn. lia.
Qed.

Lemma allocates_bind {A B} (g : B -> loc) (m : M A) (k : A -> M B) :
  appends m -> (forall a, allocates g (k a)) -> allocates g (bindM m k).
Proof.
  intros Hm Hk h. destruct (Hm h) as [ext1 H1]. unfold bindM.
  destruct (m h) as [h1 [a | e]]; cbn [fst] in H1; subst h1.
  - destruct (Hk a (h ++ ext1)) as (ext2 & H2 & Hr).
    exists (ext1 ++ ext2). rewrite H2, app_assoc. split; [reflexivity|].
    intros x Hret. specialize (Hr x Hret). rewrite !length_app in *. lia.
  - exists ext1. split; [reflexivity | discriminate].
Qed.

Lemma allocates_Array_prototype_map {S} a (f : S -> Z -> nat -> M (Z * S)) s :
  (forall s x i, appends (f s x i)) ->
  allocates (fun p => fst p) (Array_prototype_map a f s).
Proof.
  intros Hf. unfold Array_prototype_map.
  apply allocates_bind; [auto with frame | intros l].
  apply allocates_bind; [now apply appends_map_elems | intros q].
  intros h. exists [ArrayCell (fst q)]. cbn. split; [reflexivity|].
  intros x [= <-]. cbn. rewrite length_app. cbn. lia.
Qed.

Lemma allocates_combineMap {S} a1 a2 (fn : S -> Z -> option Z -> Z * S) s :
  allocates (fun p => fst p) (combineMap a1 a2 fn s).
Proof.
  unfold combineMap. apply allocates_Array_prototype_map. intros. frame.
Qed.

Lemma returns_new_Binary_throw (e : error) : returns_new_Binary (throw e).
Proof.
  intros h. exists []. cbn. rewrite app_nil_r. split; [reflexivity | discriminate].
Qed.

Lemma returns_new_Binary_bind {A} (m : M A) (k : A -> M loc) :
  appends m -> (forall a, returns_new_Binary (k a)) ->
  returns_new_Binary (bindM m k).
Proof.
  intros Hm Hk h. destruct (Hm h) as [ext1 H1]. unfold bindM.
  destruct (m h) as [h1 [a | e]]; cbn [fst] in H1; subst h1.
  - destruct (Hk a (h ++ ext1)) as (ext2 & H2 & Hr).
    exists (ext1 ++ ext2). rewrite H2, app_assoc. split; [reflexivity|].
    intros r Hret. destruct (Hr r Hret) as (Hfresh & b & Hb & Hbfresh).
    rewrite length_app in *. split; [lia|].
    exists b. split; [exact Hb | lia].
  - exists ext1. split; [reflexivity | discriminate].
Qed.

(** [new Binary(...)] on an array that the computation has just made. *)
Lemma returns_new_Binary_new {A} (m : M A) (g : A -> loc) :
  allocates g m -> returns_new_Binary (bindM m (fun x => new_Binary (g x))).
Proof.
  intros Hm h. destruct (Hm h) as (ext & Hext & Hg). unfold bindM, new_Binary.
  destruct (m h) as [h1 [x | e]]; cbn [fst snd] in *; subst h1.
  - exists (ext ++ [BinaryCell (g x)]). rewrite app_assoc. split; [reflexivity|].
    intros r [= <-]. specialize (Hg x eq_refl). rewrite length_app in *.
    split; [lia|]. exists (g x). split; [|lia].
    apply list_lookup_middle. now rewrite length_app.
  - exists ext. split; [reflexivity | discriminate].
Qed.

Hint Resolve allocates_new_array allocates_combineMap : frame.

(** As [frame], for a computation that ends in [new Binary(...)]. *)
Ltac fresh_result :=
  repeat match goal with
    | |- returns_new_Binary (bindM ?m (fun x => new_Binary (@?g x))) =>
        apply (returns_new_Binary_new m g)
    | |- returns_new_Binary (bindM _ _) =>
        apply returns_new_Binary_bind; [solve [frame] | intros ?]
    | |- returns_new_Binary (if ?b then _ else _) => destruct b
    | |- returns_new_Binary (match ?x with _ => _ end) => destruct x
    | |- returns_new_Binary (throw _) => apply returns_new_Binary_throw
    | |- allocates _ _ => solve [auto with frame]
    end.

Lemma returns_new_Binary_zeroExtend this nBits :
  returns_new_Binary (zeroExtend this nBits).
Proof. unfold zeroExtend. fresh_result. Qed.

Lemma returns_new_Binary_zeroExtendToMatch this other :
  returns_new_Binary (zeroExtendToMatch this other).
Proof.
  unfold zeroExtendToMatch. fresh_result. apply returns_new_Binary_zeroExtend.
Qed.

Lemma returns_new_Binary_add this other : returns_new_Binary (add this other).
Proof. unfold add. fresh_result. Qed.

Lemma returns_new_Binary_bitwise op this other :
  returns_new_Binary (bitwise op this other).
Proof. unfold bitwise. fresh_result. Qed.

Lemma returns_new_Binary_not this : returns_new_Binary (not this).
Proof.
  unfold not. fresh_result. apply allocates_Array_prototype_map. intros. frame.
Qed.

(** *** Calls *)

Lemma appends_returns_ref m : appends m -> appends (returns_ref m).
Proof. intros Hm. unfold returns_ref. frame. Qed.

Lemma appends_returns_num m : appends m -> appends (returns_num m).
Proof. intros Hm. unfold returns_num. frame. Qed.

Lemma appends_call m this : appends (call m this).
Proof.
  destruct m; cbn [call];
    first [apply appends_returns_ref | apply appends_returns_num];
    unfold and, or, xor; auto with frame.
  apply appends_toSignedNumber.
Qed.

Lemma returns_ref_new m h r :
  returns_new_Binary m -> snd (returns_ref m h) = Ok (Ref r) ->
  length h <= r /\
  exists a, fst (returns_ref m h) !! r = Some (BinaryCell a) /\ length h <= a.
Proof.
  intros Hm. destruct (Hm h) as (ext & Hext & Hr).
  unfold returns_ref, bindM, ret. destruct (m h) as [h1 [a | e]]; cbn in *.
  - intros [= <-]. subst h1. now apply Hr.
  - discriminate.
Qed.

(** An object of the store before is the same object in the store after. *)
Lemma appends_lookup {A} (m : M A) h (l : loc) c :
  appends m -> h !! l = Some c -> fst (m h) !! l = Some c.
Proof.
  intros Hm Hl. destruct (Hm h) as [ext ->]. now apply lookup_app_l_Some.
Qed.

Lemma appends_bits_of {A} (m : M A) h (o : loc) l :
  appends m -> bits_of h o = Some l -> bits_of (fst (m h)) o = Some l.
Proof.
  intros Hm. unfold bits_of.
  destruct (h !! o) as [[| a |]|] eqn:Ho; try discriminate.
  destruct (h !! a) as [[l' | |]|] eqn:Ha; try discriminate.
  intros [= <-].
  now rewrite (appends_lookup m h o _ Hm Ho), (appends_lookup m h a _ Hm Ha).
Qed.

End Frame.

(** ** The methods over the store compute the arrays of Part I *)

Section Refinement.

Implicit Types (h : list Store.cell) (l : list Z) (a o this other : Store.loc).

Lemma bind_run {A B} (m : Store.M A) (k : A -> Store.M B) h h1 x :
  m h = (h1, Ok x) -> Store.bindM m k h = k x h1.
Proof. intros H. unfold Store.bindM. now rewrite H. Qed.

Lemma bind_throws {A B} (m : Store.M A) (k : A -> Store.M B) h h1 e :
  m h = (h1, Throw e) -> Store.bindM m k h = (h1, Throw e).
Proof. intros H. unfold Store.bindM. now rewrite H. Qed.

Lemma bits_of_lookup h o l :
  Store.bits_of h o = Some l <->
  exists a, h !! o = Some (Store.BinaryCell a) /\ h !! a = Some (Store.ArrayCell l).
Proof.
  unfold Store.bits_of. split.
  - destruct (h !! o) as [[| a |]|]; try discriminate.
    destruct (h !! a) as [[l' | |]|] eqn:Ha; try discriminate.
    intros [= <-]. now exists a.
  - intros (a & -> & ->). reflexivity.
Qed.

Lemma lookup_new h (c : Store.cell) : (h ++ [c]) !! length h = Some c.
Proof. now apply list_lookup_middle. Qed.

Lemma lookup_old h (ext : list Store.cell) (i : nat) (c : Store.cell) :
  h !! i = Some c -> (h ++ ext) !! i = Some c.
Proof. apply lookup_app_l_Some. Qed.

Lemma bits_of_old h ext o l :
  Store.bits_of h o = Some l -> Store.bits_of (h ++ ext) o = Some l.
Proof.
  rewrite !bits_of_lookup. intros (a & Ho & Ha). exists a. split; now apply lookup_old.
Qed.

Lemma run_get_bits h o a :
  h !! o = Some (Store.BinaryCell a) -> Store.get_bits o h = (h, Ok a).
Proof. intros H. unfold Store.get_bits. now rewrite H. Qed.

Lemma run_get_elems h a l :
  h !! a = Some (Store.ArrayCell l) -> Store.get_elems a h = (h, Ok l).
Proof. intros H. unfold Store.get_elems. now rewrite H. Qed.

Lemma run_get_length h a l :
  h !! a = Some (Store.ArrayCell l) -> Store.get_length a h = (h, Ok (len l)).
Proof.
  intros H. unfold Store.get_length. now rewrite (bind_run _ _ _ _ _ (run_get_elems _ _ _ H)).
Qed.

Lemma run_get_index h a l (i : nat) :
  h !! a = Some (Store.ArrayCell l) -> Store.get_index a i h = (h, Ok (l !! i)).
Proof.
  intros H. unfold Store.get_index. now rewrite (bind_run _ _ _ _ _ (run_get_elems _ _ _ H)).
Qed.

Lemma run_reverse h a l :
  h !! a = Some (Store.ArrayCell l) ->
  Store.reverse a h = (h ++ [Store.ArrayCell (rev l)], Ok (length h)).
Proof.
  intros H. unfold Store.reverse.
  rewrite (bind_run _ _ _ _ _ (run_get_elems _ _ _ H)).
  unfold Store.bindM, Store.new_array, Store.Array_prototype_reverse.
  rewrite lookup_new, insert_app_r_alt by reflexivity. now rewrite Nat.sub_diag.
Qed.

Lemma run_slice1 h a l :
  h !! a = Some (Store.ArrayCell l) ->
  Store.slice1 a h = (h ++ [Store.ArrayCell (slice1 l)], Ok (length h)).
Proof.
  intros H. unfold Store.slice1. now rewrite (bind_run _ _ _ _ _ (run_get_elems _ _ _ H)).
Qed.

Lemma run_assertIsBinary h o a :
  h !! o = Some (Store.BinaryCell a) ->
  Store.assertIsBinary (Store.Ref o) h = (h, Ok o).
Proof. intros H. cbn. now rewrite H. Qed.

Lemma run_assertSameNumberOfBits h this other l l' :
  Store.bits_of h this = Some l -> Store.bits_of h other = Some l' ->
  Store.assertSameNumberOfBits this other h
  = (h, assertSameNumberOfBits (new_Binary l) (new_Binary l')).
Proof.
  rewrite !bits_of_lookup. intros (a & Ht & Ha) (b & Ho & Hb).
  unfold Store.assertSameNumberOfBits, assertSameNumberOfBits. cbn [bits].
  rewrite (bind_run _ _ _ _ _ (run_get_bits _ _ _ Ho)).
  rewrite (bind_run _ _ _ _ _ (run_get_length _ _ _ Hb)).
  rewrite (bind_run _ _ _ _ _ (run_get_bits _ _ _ Ht)).
  rewrite (bind_run _ _ _ _ _ (run_get_length _ _ _ Ha)).
  now destruct (negb (len l' =? len l)%Z).
Qed.

(** *** The loops *)

Lemma head_drop_lookup l (i : nat) : head (drop i l) = l !! i.
Proof. now rewrite head_lookup, lookup_drop, Nat.add_0_r. Qed.

Lemma tail_drop l (i : nat) : tail (drop i l) = drop (S i) l.
Proof.
  revert l. induction i as [|i IH]; intros [|x l]; cbn; try reflexivity.
  apply IH.
Qed.

(** The callback of [combineMap], over the elements that are left. *)
Lemma run_combine_elems {St} h a2 l2 (fn : St -> Z -> option Z -> Z * St) :
  h !! a2 = Some (Store.ArrayCell l2) ->
  forall l1 (i : nat) (s : St),
    Store.map_elems l1 i
      (fun s x i =>
         Store.bindM (Store.get_index a2 i) (fun y => Store.ret (fn s x y)))
      s h
    = (h, Ok (combineMap_st l1 (drop i l2) fn s)).
Proof.
  intros H2. induction l1 as [|x l1 IH]; intros i s;
    cbn [Store.map_elems combineMap_st]; [reflexivity|].
  rewrite (bind_run _ _ h h (fn s x (l2 !! i))).
  2:{ now rewrite (bind_run _ _ _ _ _ (run_get_index _ _ _ i H2)). }
  rewrite (bind_run _ _ _ _ _ (IH (S i) (snd (fn s x (l2 !! i))))).
  rewrite head_drop_lookup, tail_drop. unfold Store.ret.
  destruct (fn s x (l2 !! i)) as [y s1]. cbn [fst snd].
  now destruct (combineMap_st l1 (drop (S i) l2) fn s1) as [ys s2].
Qed.

Lemma run_combineMap {St} h a1 a2 l1 l2 (fn : St -> Z -> option Z -> Z * St) s :
  h !! a1 = Some (Store.ArrayCell l1) -> h !! a2 = Some (Store.ArrayCell l2) ->
  Store.combineMap a1 a2 fn s h
  = (h ++ [Store.ArrayCell (fst (combineMap_st l1 l2 fn s))],
     Ok (length h, snd (combineMap_st l1 l2 fn s))).
Proof.
  intros H1 H2. unfold Store.combineMap, Store.Array_prototype_map.
  rewrite (bind_run _ _ _ _ _ (run_get_elems _ _ _ H1)).
  rewrite (bind_run _ _ _ _ _ (run_combine_elems h a2 l2 fn H2 l1 0%nat s)).
  now rewrite drop_0.
Qed.

(** A callback that assigns nothing. *)
Lemma combineMap_st_stateless {A B C} (fn : A -> option B -> C) (a1 : list A) :
  forall a2 : list B,
    combineMap_st a1 a2 (fun (_ : unit) x y => (fn x y, tt)) tt
    = (combineMap a1 a2 fn, tt).
Proof.
  induction a1 as [|x a1 IH]; intros a2; cbn [combineMap_st combineMap]; [reflexivity|].
  now rewrite IH.
Qed.

Lemma run_map_elems_ret h (g : Z -> Z) l :
  forall i : nat,
    Store.map_elems l i (fun (_ : unit) x _ => Store.ret (g x, tt)) tt h
    = (h, Ok (map g l, tt)).
Proof.
  induction l as [|x l IH]; intros i; cbn [Store.map_elems map]; [reflexivity|].
  rewrite (bind_run _ _ h h (g x, tt)) by reflexivity. cbn [snd fst].
  now rewrite (bind_run _ _ _ _ _ (IH (S i))).
Qed.

(** The callback of [toNumber], over the elements that are left. *)
Lemma run_forEach_elems_toNumber h this a l0 :
  h !! this = Some (Store.BinaryCell a) -> h !! a = Some (Store.ArrayCell l0) ->
  forall l (i : nat) (total : Z),
    Store.forEach_elems l i
      (fun total bit i =>
         Store.bindM (Store.get_bits this) (fun thisBits =>
         Store.bindM (Store.get_length thisBits) (fun thisLength =>
           let powerOfTwo := (thisLength - Z.of_nat i - 1)%Z in
           Store.ret (if (bit =? 1)%Z then (total + 2 ^ powerOfTwo)%Z else total))))
      total h
    = (h, Ok (forEach_from l (Z.of_nat i)
                (fun total bit i =>
                   let powerOfTwo := (len l0 - i - 1)%Z in
                   if (bit =? 1)%Z then (total + 2 ^ powerOfTwo)%Z else total)
                total)).
Proof.
  intros Ht Ha. induction l as [|x l IH]; intros i total;
    cbn [Store.forEach_elems forEach_from]; [reflexivity|].
  rewrite (bind_run _ _ h h
             (if (x =? 1)%Z then (total + 2 ^ (len l0 - Z.of_nat i - 1))%Z else total)).
  2:{ rewrite (bind_run _ _ _ _ _ (run_get_bits _ _ _ Ht)).
      now rewrite (bind_run _ _ _ _ _ (run_get_length _ _ _ Ha)). }
  rewrite IH. now rewrite Nat2Z.inj_succ, <- Z.add_1_r.
Qed.

(** *** The methods *)

Lemma store_toNumber h this l :
  Store.bits_of h this = Some l ->
  Store.toNumber this h = (h, Ok (toNumber (new_Binary l))).
Proof.
  rewrite bits_of_lookup. intros (a & Ht & Ha).
  unfold Store.toNumber, Store.Array_prototype_forEach.
  rewrite (bind_run _ _ _ _ _ (run_get_bits _ _ _ Ht)).
  rewrite (bind_run _ _ _ _ _ (run_get_elems _ _ _ Ha)).
  now rewrite (run_forEach_elems_toNumber h this a l Ht Ha).
Qed.

Lemma store_not h this l :
  Store.bits_of h this = Some l ->
  Store.not this h
  = (h ++ [Store.ArrayCell (bits (not (new_Binary l)));
           Store.BinaryCell (length h)],
     Ok (S (length h))).
Proof.
  rewrite bits_of_lookup. intros (a & Ht & Ha).
  unfold Store.not, Store.Array_prototype_map.
  rewrite (bind_run _ _ _ _ _ (run_get_bits _ _ _ Ht)).
  rewrite (bind_run _ _ h (h ++ [Store.ArrayCell (bits (not (new_Binary l)))])
             (length h, tt)).
  2:{ rewrite (bind_run _ _ _ _ _ (run_get_elems _ _ _ Ha)).
      now rewrite (bind_run _ _ _ _ _ (run_map_elems_ret h _ l 0%nat)). }
  unfold Store.new_Binary. cbn [fst]. rewrite <- app_assoc, length_app. cbn [app length].
  repeat f_equal; lia.
Qed.

Lemma store_zeroExtend h this l (nBits : Z) :
  Store.bits_of h this = Some l ->
  match zeroExtend (new_Binary l) nBits with
  | Ok b =>
      Store.zeroExtend this nBits h
      = (h ++ [Store.ArrayCell (Array_from (nBits - len l) 0);
               Store.ArrayCell (bits b);
               Store.BinaryCell (S (length h))],
         Ok (S (S (length h))))
  | Throw e => Store.zeroExtend this nBits h = (h, Throw e)
  end.
Proof.
  rewrite bits_of_lookup. intros (a & Ht & Ha).
  unfold Store.zeroExtend, zeroExtend. cbn [bits].
  rewrite (bind_run _ _ _ _ _ (run_get_bits _ _ _ Ht)).
  rewrite (bind_run _ _ _ _ _ (run_get_length _ _ _ Ha)).
  destruct (nBits <=? len l)%Z; [reflexivity|]. cbn [bits].
  rewrite (bind_run _ _ _ _ _ (run_get_bits _ _ _ Ht)).
  rewrite (bind_run _ _ _ _ _ (run_get_length _ _ _ Ha)).
  unfold Store.Array_from.
  rewrite (bind_run _ _ h (h ++ [Store.ArrayCell (Array_from (nBits - len l) 0)])
             (length h)) by reflexivity.
  rewrite (bind_run _ _ _ _ _ (run_get_elems _ _ _ (lookup_new h _))).
  rewrite (bind_run _ _ _ _ _ (run_get_bits _ _ _ (lookup_old _ _ _ _ Ht))).
  rewrite (bind_run _ _ _ _ _ (run_get_elems _ _ _ (lookup_old _ _ _ _ Ha))).
  unfold Store.bindM, Store.new_array, Store.new_Binary.
  rewrite <- !app_assoc, !length_app. cbn [app length].
  repeat f_equal; lia.
Qed.

Lemma store_add h this other l l' :
  Store.bits_of h this = Some l -> Store.bits_of h other = Some l' ->
  match add (new_Binary l) (VBinary (new_Binary l')) with
  | Ok b =>
      let newBits := fst (combineMap_st (reverse l) (reverse l') add_step 0%Z) in
      Store.add this (Store.Ref other) h
      = (h ++ [Store.ArrayCell (reverse l); Store.ArrayCell (reverse l');
               Store.ArrayCell newBits; Store.ArrayCell (reverse newBits);
               Store.ArrayCell (bits b); Store.BinaryCell (length h + 4)%nat],
         Ok (length h + 5)%nat)
  | Throw e => Store.add this (Store.Ref other) h = (h, Throw e)
  end.
Proof.
  intros Hthis Hother.
  pose proof Hthis as (a & Ht & Ha)%bits_of_lookup.
  pose proof Hother as (b & Ho & Hb)%bits_of_lookup.
  unfold Store.add, add. cbn [assertIsBinary bind].
  rewrite (bind_run _ _ _ _ _ (run_assertIsBinary _ _ _ Ho)).
  destruct (assertSameNumberOfBits (new_Binary l) (new_Binary l')) as [[]|e] eqn:E;
    cbn [bind bits].
  2:{ apply bind_throws. now rewrite (run_assertSameNumberOfBits h this other l l'), E. }
  rewrite (bind_run _ _ h h tt)
    by now rewrite (run_assertSameNumberOfBits h this other l l'), E.
  unfold reverse.
  destruct (combineMap_st (rev l) (rev l') add_step 0%Z) as [newBits carryBit] eqn:Hrun.
  cbn [bits fst].
  rewrite (bind_run _ _ _ _ _ (run_get_bits _ _ _ Ht)).
  rewrite (bind_run _ _ _ _ _ (run_reverse _ _ _ Ha)).
  set (h1 := h ++ [Store.ArrayCell (rev l)]).
  assert (H1 : h1 !! length h = Some (Store.ArrayCell (rev l))) by apply lookup_new.
  rewrite (bind_run _ _ _ _ _ (run_get_bits h1 _ _ (lookup_old _ _ _ _ Ho))).
  rewrite (bind_run _ _ _ _ _ (run_reverse h1 _ _ (lookup_old _ _ _ _ Hb))).
  set (h2 := h1 ++ [Store.ArrayCell (rev l')]).
  assert (H2 : h2 !! length h1 = Some (Store.ArrayCell (rev l'))) by apply lookup_new.
  rewrite (bind_run _ _ _ _ _
             (run_combineMap h2 _ _ _ _ add_step 0%Z (lookup_old _ _ _ _ H1) H2)).
  rewrite Hrun. cbn [fst snd].
  set (h3 := h2 ++ [Store.ArrayCell newBits]).
  rewrite (bind_run _ _ _ _ _ (run_reverse h3 _ _ (lookup_new h2 _))).
  rewrite (bind_run _ _ _ _ _ (run_get_elems _ _ _ (lookup_new h3 _))).
  unfold Store.bindM, Store.new_array, Store.new_Binary.
  subst h3 h2 h1. rewrite <- !app_assoc, !length_app. cbn [app length].
  repeat f_equal; lia.
Qed.

Lemma store_bitwise (op : option Z -> option Z -> Z) h this other l l' :
  Store.bits_of h this = Some l -> Store.bits_of h other = Some l' ->
  Store.bitwise op this (Store.Ref other) h
  = match assertSameNumberOfBits (new_Binary l) (new_Binary l') with
    | Ok _ =>
        (h ++ [Store.ArrayCell
                 (combineMap l l' (fun bit1 bit2 => op (Some bit1) bit2));
               Store.BinaryCell (length h)],
         Ok (S (length h)))
    | Throw e => (h, Throw e)
    end.
Proof.
  intros Hthis Hother.
  pose proof Hthis as (a & Ht & Ha)%bits_of_lookup.
  pose proof Hother as (b & Ho & Hb)%bits_of_lookup.
  unfold Store.bitwise.
  rewrite (bind_run _ _ _ _ _ (run_assertIsBinary _ _ _ Ho)).
  destruct (assertSameNumberOfBits (new_Binary l) (new_Binary l')) as [[]|e] eqn:E.
  2:{ apply bind_throws. now rewrite (run_assertSameNumberOfBits h this other l l'), E. }
  rewrite (bind_run _ _ h h tt)
    by now rewrite (run_assertSameNumberOfBits h this other l l'), E.
  rewrite (bind_run _ _ _ _ _ (run_get_bits _ _ _ Ht)).
  rewrite (bind_run _ _ _ _ _ (run_get_bits _ _ _ Ho)).
  rewrite (bind_run _ _ _ _ _ (run_combineMap h _ _ _ _ _ tt Ha Hb)).
  rewrite combineMap_st_stateless. cbn [fst snd].
  unfold Store.new_Binary. rewrite <- app_assoc, length_app. cbn [app length].
  repeat f_equal; lia.
Qed.

(** [and], [or] and [xor] over the store against those of Part I. *)
Lemma store_and_or_xor h this other l l' :
  Store.bits_of h this = Some l -> Store.bits_of h other = Some l' ->
  let part1 (r : result Binary) :=
    match r with
    | Ok b => (h ++ [Store.ArrayCell (bits b); Store.BinaryCell (length h)],
               Ok (S (length h)))
    | Throw e => (h, Throw e)
    end in
  Store.and this (Store.Ref other) h
    = part1 (and (new_Binary l) (VBinary (new_Binary l'))) /\
  Store.or this (Store.Ref other) h
    = part1 (or (new_Binary l) (VBinary (new_Binary l'))) /\
  Store.xor this (Store.Ref other) h
    = part1 (xor (new_Binary l) (VBinary (new_Binary l'))).
Proof.
  intros Hthis Hother part1. unfold Store.and, Store.or, Store.xor.
  rewrite !(store_bitwise _ h this other l l' Hthis Hother).
  unfold and, or, xor. cbn [assertIsBinary bind bits].
  now destruct (assertSameNumberOfBits (new_Binary l) (new_Binary l')).
Qed.

Lemma store_zeroExtendToMatch h this other l l' :
  Store.bits_of h this = Some l -> Store.bits_of h other = Some l' ->
  Store.zeroExtendToMatch this (Store.Ref other) h
  = Store.zeroExtend this (len l') h /\
  zeroExtendToMatch (new_Binary l) (VBinary (new_Binary l'))
  = zeroExtend (new_Binary l) (len l').
Proof.
  intros _ (b & Ho & Hb)%bits_of_lookup. split; [|reflexivity].
  unfold Store.zeroExtendToMatch.
  rewrite (bind_run _ _ _ _ _ (run_assertIsBinary _ _ _ Ho)).
  rewrite (bind_run _ _ _ _ _ (run_get_bits _ _ _ Ho)).
  now rewrite (bind_run _ _ _ _ _ (run_get_length _ _ _ Hb)).
Qed.

(** *** In terms of the bit sequences alone *)

Lemma lookup_added h (cells : list Store.cell) (k : nat) :
  (h ++ cells) !! (length h + k)%nat = cells !! k.
Proof. rewrite lookup_app_r by lia. f_equal. lia. Qed.

Lemma store_add_bits h this other l l' :
  Store.bits_of h this = Some l -> Store.bits_of h other = Some l' ->
  exists ext,
    match add (new_Binary l) (VBinary (new_Binary l')) with
    | Ok b =>
        exists r, Store.add this (Store.Ref other) h = (h ++ ext, Ok r) /\
                  Store.bits_of (h ++ ext) r = Some (bits b)
    | Throw e => Store.add this (Store.Ref other) h = (h ++ ext, Throw e)
    end.
Proof.
  intros Hthis Hother. pose proof (store_add h this other l l' Hthis Hother) as H.
  destruct (add (new_Binary l) (VBinary (new_Binary l'))) as [b | e].
  - cbv zeta in H. eexists. eexists. split; [exact H|].
    apply bits_of_lookup. exists (length h + 4)%nat.
    now rewrite !lookup_added.
  - exists []. now rewrite app_nil_r.
Qed.

Lemma store_not_bits h this l :
  Store.bits_of h this = Some l ->
  exists ext r,
    Store.not this h = (h ++ ext, Ok r) /\
    Store.bits_of (h ++ ext) r = Some (bits (not (new_Binary l))).
Proof.
  intros Hthis. do 2 eexists. split; [apply (store_not h this l Hthis)|].
  apply bits_of_lookup. exists (length h).
  split.
  - replace (S (length h)) with (length h + 1)%nat by lia. now rewrite lookup_added.
  - now apply list_lookup_middle.
Qed.

Lemma store_toSignedNumber_negative h this l :
  Store.bits_of h this = Some l ->
  exists ext,
    Store.toSignedNumber_negative this h
    = (h ++ ext,
       let* sum := add (new_Binary l) (VBinary (new_Binary (Array_from (len l) 1))) in
       Ok (- toNumber (new_Binary (slice1 (bits (not sum)))))).
Proof.
  intros Hthis. pose proof Hthis as (a & Ht & Ha)%bits_of_lookup.
  unfold Store.toSignedNumber_negative.
  rewrite (bind_run _ _ _ _ _ (run_get_bits _ _ _ Ht)).
  rewrite (bind_run _ _ _ _ _ (run_get_length _ _ _ Ha)).
  unfold Store.Array_from.
  rewrite (bind_run _ _ h (h ++ [Store.ArrayCell (Array_from (len l) 1)]) (length h))
    by reflexivity.
  set (h1 := h ++ [Store.ArrayCell (Array_from (len l) 1)]).
  rewrite (bind_run _ _ h1 (h1 ++ [Store.BinaryCell (length h)]) (length h1))
    by reflexivity.
  set (h2 := h1 ++ [Store.BinaryCell (length h)]).
  assert (Hones : Store.bits_of h2 (length h1) = Some (Array_from (len l) 1)).
  { apply bits_of_lookup. exists (length h). split; [apply lookup_new|].
    apply lookup_old, lookup_new. }
  assert (Hthis2 : Store.bits_of h2 this = Some l).
  { subst h2 h1. now do 2 apply bits_of_old. }
  destruct (store_add_bits h2 this (length h1) l _ Hthis2 Hones) as [ext3 Hadd].
  destruct (add (new_Binary l) (VBinary (new_Binary (Array_from (len l) 1))))
    as [sum | e]; cbn [bind].
  2:{ rewrite (bind_throws _ _ _ _ _ Hadd). eexists. f_equal.
      subst h2 h1. now rewrite <- !app_assoc. }
  destruct Hadd as (r & Hadd & Hsum). rewrite (bind_run _ _ _ _ _ Hadd).
  set (h3 := h2 ++ ext3) in *.
  destruct (store_not_bits h3 r (bits sum) Hsum) as (ext4 & r' & Hnot & Hflipped).
  rewrite (bind_run _ _ _ _ _ Hnot). set (h4 := h3 ++ ext4) in *.
  apply bits_of_lookup in Hflipped as (b & Hr' & Hb).
  rewrite (bind_run _ _ _ _ _ (run_get_bits _ _ _ Hr')).
  rewrite (bind_run _ _ _ _ _ (run_slice1 _ _ _ Hb)).
  set (h5 := h4 ++ [Store.ArrayCell (slice1 (bits (not (new_Binary (bits sum)))))]).
  rewrite (bind_run _ _ h5 (h5 ++ [Store.BinaryCell (length h4)]) (length h5))
    by reflexivity.
  set (h6 := h5 ++ [Store.BinaryCell (length h4)]).
  rewrite (bind_run _ _ h6 h6
             (toNumber (new_Binary (slice1 (bits (not (new_Binary (bits sum)))))))).
  2:{ apply store_toNumber. apply bits_of_lookup. exists (length h4).
      split; [apply lookup_new|]. apply lookup_old, lookup_new. }
  destruct sum as [s]. cbn [bits]. unfold Store.ret.
  eexists. f_equal. subst h6 h5 h4 h3 h2 h1. now rewrite <- !app_assoc.
Qed.

(** [toSignedNumber] over the store returns or throws what that of Part I
    does. *)
Lemma store_toSignedNumber h this l :
  Store.bits_of h this = Some l ->
  exists ext,
    Store.toSignedNumber this h = (h ++ ext, toSignedNumber (new_Binary l)).
Proof.
  intros Hthis. pose proof Hthis as (a & Ht & Ha)%bits_of_lookup.
  destruct (store_toSignedNumber_negative h this l Hthis) as [ext Hneg].
  unfold Store.toSignedNumber, toSignedNumber. cbn [bits].
  rewrite (bind_run _ _ _ _ _ (run_get_bits _ _ _ Ht)).
  rewrite (bind_run _ _ _ _ _ (run_get_index _ _ _ 0%nat Ha)).
  destruct l as [|[|p|p] l]; cbn [lookup list_lookup]; try (now exists ext).
  exists []. rewrite app_nil_r. apply (store_toNumber h this _ Hthis).
Qed.

End Refinement.

(** The method [Array.prototype.reverse] itself does write to its array:
    the store can tell a method that mutates from one that does not. *)
Example Array_prototype_reverse_in_place :
  Store.Array_prototype_reverse 0%nat [Store.ArrayCell [1; 1; 0]]
  = ([Store.ArrayCell [0; 1; 1]], Ok 0%nat).
Proof. reflexivity. Qed.

(** C9. Whatever the store, the receiver and the argument, a call of
    [add], [and], [or], [xor], [not], [zeroExtend], [zeroExtendToMatch],
    [toNumber] or [toSignedNumber], returning or throwing, leaves every
    object of the store as it was: the bit sequence of every Binary, so
    that of the receiver and of a Binary argument, is the same after the
    call; and a reference that the call returns is to an instance of
    Binary that was not in the store before, with a [bits] array that was
    not in the store before. *)
Theorem methods_do_not_mutate (m : Store.method) (this : Store.loc)
    (h : list Store.cell) :
  (forall o c, h !! o = Some c -> fst (Store.call m this h) !! o = Some c) /\
  (forall o l, Store.bits_of h o = Some l ->
               Store.bits_of (fst (Store.call m this h)) o = Some l) /\
  (forall r, snd (Store.call m this h) = Ok (Store.Ref r) ->
     (length h <= r)%nat /\
     exists a, fst (Store.call m this h) !! r = Some (Store.BinaryCell a) /\
               (length h <= a)%nat).
Proof.
  split; [|split].
  - intros o c. apply appends_lookup, appends_call.
  - intros o l. apply appends_bits_of, appends_call.
  - intros r. destruct m; cbn [Store.call].
    + apply returns_ref_new, returns_new_Binary_add.
    + apply returns_ref_new, returns_new_Binary_bitwise.
    + apply returns_ref_new, returns_new_Binary_bitwise.
    + apply returns_ref_new, returns_new_Binary_bitwise.
    + apply returns_ref_new, returns_new_Binary_not.
    + apply returns_ref_new, returns_new_Binary_zeroExtend.
    + apply returns_ref_new, returns_new_Binary_zeroExtendToMatch.
    + unfold Store.returns_num, Store.bindM, Store.ret.
      destruct (Store.toNumber this h) as [h1 [n | e]]; discriminate.
    + unfold Store.returns_num, Store.bindM, Store.ret.
      destruct (Store.toSignedNumber this h) as [h1 [n | e]]; discriminate.
Qed.

Lemma methods_do_not_mutate_witness :
  let h := [Store.ArrayCell [1;0;1;1]; Store.BinaryCell 0%nat;
            Store.ArrayCell [0;1;0;1]; Store.BinaryCell 2%nat] in
  let h' := fst (Store.call (Store.Add (Store.Ref 3%nat)) 1%nat h) in
  Store.bits_of h' 1%nat = Some [1;0;1;1] /\
  Store.bits_of h' 3%nat = Some [0;1;0;1] /\
  (length h <= 9)%nat /\
  exists a, h' !! 9%nat = Some (Store.BinaryCell a) /\ (length h <= a)%nat.
Proof.
  intros h h'.
  destruct (methods_do_not_mutate (Store.Add (Store.Ref 3%nat)) 1%nat h)
    as (_ & Hbits & Hnew).
  split; [apply Hbits; reflexivity|].
  split; [apply Hbits; reflexivity|].
  apply Hnew. reflexivity.
Defined.

(** * Part III: further properties of the class *)

(** ** Element by element *)

Section Elementwise.

Implicit Types (a b : list Z) (x y : Z).

Lemma combineMap_length {A B C} (fn : A -> option B -> C) (a1 : list A) :
  forall a2 : list B, length (combineMap a1 a2 fn) = length a1.
Proof.
  induction a1 as [|x a1 IH]; intros a2; cbn [combineMap length]; [reflexivity|].
  now rewrite IH.
Qed.

(** A callback that does not depend on the order of its two arguments
    gives the same array whichever operand is the receiver. *)
Lemma combineMap_comm {C} (fn : Z -> option Z -> C) a :
  (forall x y, fn x (Some y) = fn y (Some x)) ->
  forall b, length a = length b -> combineMap a b fn = combineMap b a fn.
Proof.
  intros Hfn. induction a as [|x a IH]; intros [|y b] Hlen; try discriminate;
    [reflexivity|].
  cbn [combineMap head tail]. injection Hlen as Hlen.
  now rewrite Hfn, IH.
Qed.

Lemma combineMap_st_comm {St C} (fn : St -> Z -> option Z -> C * St) a :
  (forall s x y, fn s x (Some y) = fn s y (Some x)) ->
  forall b s, length a = length b ->
    combineMap_st a b fn s = combineMap_st b a fn s.
Proof.
  intros Hfn. induction a as [|x a IH]; intros [|y b] s Hlen; try discriminate;
    [reflexivity|].
  cbn [combineMap_st head tail]. injection Hlen as Hlen.
  rewrite Hfn. destruct (fn s y (Some x)) as [z s1]. now rewrite IH.
Qed.

Lemma combineMap_app {C} (fn : Z -> option Z -> C) a1 : forall a2 b1 b2,
  length a1 = length b1 ->
  combineMap (a1 ++ a2) (b1 ++ b2) fn = combineMap a1 b1 fn ++ combineMap a2 b2 fn.
Proof.
  induction a1 as [|x a1 IH]; intros a2 [|y b1] b2 Hlen; try discriminate;
    [reflexivity|].
  cbn [app combineMap head tail]. injection Hlen as Hlen. now rewrite IH.
Qed.

Lemma combineMap_rev {C} (fn : Z -> option Z -> C) a : forall b,
  length a = length b ->
  combineMap (rev a) (rev b) fn = rev (combineMap a b fn).
Proof.
  induction a as [|x a IH]; intros [|y b] Hlen; try discriminate; [reflexivity|].
  injection Hlen as Hlen. cbn [rev combineMap head tail].
  rewrite combineMap_app by now rewrite !length_rev.
  now rewrite IH.
Qed.

Lemma combineMap_all_bits (fn : Z -> option Z -> Z) a :
  (forall x y, (x = 0 \/ x = 1) -> (y = 0 \/ y = 1) ->
               fn x (Some y) = 0 \/ fn x (Some y) = 1) ->
  forall b, all_bits a = true -> all_bits b = true -> length a = length b ->
    all_bits (combineMap a b fn) = true.
Proof.
  intros Hfn. induction a as [|x a IH]; intros [|y b] Ha Hb Hlen; try discriminate;
    [reflexivity|].
  apply all_bits_cons in Ha as [Hx Ha]. apply all_bits_cons in Hb as [Hy Hb].
  injection Hlen as Hlen. cbn [combineMap head tail].
  apply all_bits_cons. split; [now apply Hfn | now apply IH].
Qed.

Lemma js_and_comm x y : js_and (Some x) (Some y) = js_and (Some y) (Some x).
Proof. apply Z.land_comm. Qed.

Lemma js_or_comm x y : js_or (Some x) (Some y) = js_or (Some y) (Some x).
Proof. apply Z.lor_comm. Qed.

Lemma js_xor_comm x y : js_xor (Some x) (Some y) = js_xor (Some y) (Some x).
Proof. apply Z.lxor_comm. Qed.

Lemma add_step_comm c x y : add_step c x (Some y) = add_step c y (Some x).
Proof. unfold add_step. now rewrite (js_xor_comm x y), (js_and_comm x y). Qed.

Lemma assertSameNumberOfBits_sym (a b : Binary) :
  assertSameNumberOfBits a b = assertSameNumberOfBits b a.
Proof. unfold assertSameNumberOfBits. now rewrite Z.eqb_sym. Qed.

Lemma assertSameNumberOfBits_Ok (a b : Binary) :
  assertSameNumberOfBits a b = Ok tt -> length (bits a) = length (bits b).
Proof.
  unfold assertSameNumberOfBits.
  destruct (len (bits b) =? len (bits a)) eqn:E; [|discriminate].
  intros _. apply Z.eqb_eq in E. unfold len in E. lia.
Qed.

Lemma flip_flip x : x = 0 \/ x = 1 -> flip (flip x) = x.
Proof. now intros [-> | ->]. Qed.

Lemma map_flip_flip a : all_bits a = true -> map flip (map flip a) = a.
Proof.
  induction a as [|x a IH]; intros Ha; [reflexivity|].
  apply all_bits_cons in Ha as [Hx Ha]. cbn [map].
  now rewrite flip_flip, IH.
Qed.

End Elementwise.

(** X1. For a Binary whose elements are all 0 or 1, [a.not().not()] has
    the bits of [a]; whatever the elements of [a], [a.not()] has the width
    of [a] and only 0 and 1 as elements. *)
Theorem not_involutive (a : Binary) :
  len (bits (not a)) = len (bits a) /\
  all_bits (bits (not a)) = true /\
  (all_bits (bits a) = true -> not (not a) = a).
Proof.
  destruct a as [l]. rewrite not_bits. cbn [bits].
  split; [apply len_map|]. split; [apply all_bits_map_flip|].
  intros Hl. unfold not. cbn [bits]. f_equal. now apply map_flip_flip.
Qed.

Lemma not_involutive_witness :
  len (bits (not (new_Binary [1;0;1;1]))) = len [1;0;1;1] /\
  all_bits (bits (not (new_Binary [1;0;1;1]))) = true /\
  not (not (new_Binary [1;0;1;1])) = new_Binary [1;0;1;1].
Proof.
  destruct (not_involutive (new_Binary [1;0;1;1])) as (H1 & H2 & H3).
  split; [exact H1|]. split; [exact H2|]. apply H3. reflexivity.
Defined.

(** X3. [add], [and], [or] and [xor] are commutative: for any two
    Binaries, whatever their widths and elements, [a.op(b)] and [b.op(a)]
    return the same bits or throw the same error. *)
Theorem binary_operations_commute (a b : Binary) :
  add a (VBinary b) = add b (VBinary a) /\
  and a (VBinary b) = and b (VBinary a) /\
  or a (VBinary b) = or b (VBinary a) /\
  xor a (VBinary b) = xor b (VBinary a).
Proof.
  unfold add, and, or, xor, assertIsBinary. cbn [bind].
  rewrite (assertSameNumberOfBits_sym b a).
  destruct (assertSameNumberOfBits a b) as [[]|e] eqn:E; cbn [bind];
    [|repeat split].
  apply assertSameNumberOfBits_Ok in E.
  rewrite (combineMap_comm _ (bits a) js_and_comm (bits b) E).
  rewrite (combineMap_comm _ (bits a) js_or_comm (bits b) E).
  rewrite (combineMap_comm _ (bits a) js_xor_comm (bits b) E).
  unfold reverse.
  rewrite (combineMap_st_comm add_step (rev (bits a)) add_step_comm (rev (bits b)))
    by now rewrite !length_rev.
  repeat split.
Qed.

(** ** The bitwise operations on the unsigned values *)

Section BitwiseValues.

(** An operator of the language, the operation on integers and the
    operation on booleans that it stands for. *)
Variable jsop : option Z -> option Z -> Z.
Variable zop : Z -> Z -> Z.
Variable bop : bool -> bool -> bool.

Hypothesis jsop_bits : forall bx b_y,
  jsop (Some (Z.b2z bx)) (Some (Z.b2z b_y)) = Z.b2z (bop bx b_y).
Hypothesis zop_spec : forall u v n,
  Z.testbit (zop u v) n = bop (Z.testbit u n) (Z.testbit v n).
Hypothesis bop_false : bop false false = false.

Implicit Types (a b : list Z) (x y : Z).

Lemma bit_b2z x : x = 0 \/ x = 1 -> x = Z.b2z (x =? 1).
Proof. now intros [-> | ->]. Qed.

Lemma zop_0_0 : zop 0 0 = 0.
Proof.
  apply Z.bits_inj'. intros n _. now rewrite zop_spec, Z.bits_0, bop_false.
Qed.

Lemma zop_double bx b_y u v :
  zop (Z.b2z bx + 2 * u) (Z.b2z b_y + 2 * v) = Z.b2z (bop bx b_y) + 2 * zop u v.
Proof.
  rewrite !(Z.add_comm (Z.b2z _)).
  apply Z.bits_inj'. intros n Hn. rewrite zop_spec.
  destruct (Z.eq_dec n 0) as [-> | Hn0].
  - now rewrite !Z.testbit_0_r.
  - replace n with (Z.succ (n - 1)) by lia.
    rewrite !Z.testbit_succ_r by lia. now rewrite zop_spec.
Qed.

Lemma jsop_bit x y :
  (x = 0 \/ x = 1) -> (y = 0 \/ y = 1) ->
  jsop (Some x) (Some y) = 0 \/ jsop (Some x) (Some y) = 1.
Proof.
  intros Hx Hy. rewrite (bit_b2z x Hx), (bit_b2z y Hy), jsop_bits.
  destruct (bop (x =? 1) (y =? 1)); auto.
Qed.

Lemma lsb_sum_combineMap a : forall b,
  all_bits a = true -> all_bits b = true -> length a = length b ->
  lsb_sum (combineMap a b (fun bit1 bit2 => jsop (Some bit1) bit2))
  = zop (lsb_sum a) (lsb_sum b).
Proof.
  induction a as [|x a IH]; intros [|y b] Ha Hb Hlen; try discriminate.
  - cbn [combineMap lsb_sum]. now rewrite zop_0_0.
  - apply all_bits_cons in Ha as [Hx Ha]. apply all_bits_cons in Hb as [Hy Hb].
    injection Hlen as Hlen. cbn [combineMap head tail lsb_sum].
    rewrite IH by assumption.
    rewrite (bit_b2z x Hx), (bit_b2z y Hy), jsop_bits. symmetry. apply zop_double.
Qed.

Lemma place_sum_as_lsb_sum a : all_bits a = true -> place_sum a = lsb_sum (rev a).
Proof.
  intros Ha. rewrite <- (rev_involutive a) at 1.
  apply place_sum_rev. now rewrite all_bits_rev.
Qed.

Lemma place_sum_combineMap a b :
  all_bits a = true -> all_bits b = true -> length a = length b ->
  all_bits (combineMap a b (fun bit1 bit2 => jsop (Some bit1) bit2)) = true /\
  place_sum (combineMap a b (fun bit1 bit2 => jsop (Some bit1) bit2))
  = zop (place_sum a) (place_sum b).
Proof.
  intros Ha Hb Hlen.
  assert (Hr : all_bits (combineMap a b (fun bit1 bit2 => jsop (Some bit1) bit2)) = true).
  { apply combineMap_all_bits; auto. intros x y. apply jsop_bit. }
  split; [exact Hr|].
  rewrite (place_sum_as_lsb_sum _ Hr), <- combineMap_rev by exact Hlen.
  rewrite lsb_sum_combineMap
    by (rewrite ?all_bits_rev, ?length_rev; auto).
  now rewrite <- !place_sum_as_lsb_sum.
Qed.

End BitwiseValues.

Lemma js_and_bits bx b_y :
  js_and (Some (Z.b2z bx)) (Some (Z.b2z b_y)) = Z.b2z (bx && b_y).
Proof. now destruct bx, b_y. Qed.

Lemma js_or_bits bx b_y :
  js_or (Some (Z.b2z bx)) (Some (Z.b2z b_y)) = Z.b2z (bx || b_y).
Proof. now destruct bx, b_y. Qed.

Lemma js_xor_bits bx b_y :
  js_xor (Some (Z.b2z bx)) (Some (Z.b2z b_y)) = Z.b2z (xorb bx b_y).
Proof. now destruct bx, b_y. Qed.

(** The three methods on well-formed operands of one width. *)
Lemma bitwise_well_formed (a b : Binary) :
  all_bits (bits a) = true -> all_bits (bits b) = true ->
  len (bits a) = len (bits b) ->
  exists ra ro rx,
    and a (VBinary b) = Ok (new_Binary ra) /\
    or a (VBinary b) = Ok (new_Binary ro) /\
    xor a (VBinary b) = Ok (new_Binary rx) /\
    (length ra = length (bits a) /\ length ro = length (bits a) /\
     length rx = length (bits a)) /\
    (all_bits ra = true /\ all_bits ro = true /\ all_bits rx = true) /\
    place_sum ra = Z.land (place_sum (bits a)) (place_sum (bits b)) /\
    place_sum ro = Z.lor (place_sum (bits a)) (place_sum (bits b)) /\
    place_sum rx = Z.lxor (place_sum (bits a)) (place_sum (bits b)).
Proof.
  intros Ha Hb Hlen.
  assert (Hlen' : length (bits a) = length (bits b)) by (unfold len in Hlen; lia).
  unfold and, or, xor, assertIsBinary, assertSameNumberOfBits. cbn [bind].
  rewrite <- Hlen, Z.eqb_refl. cbn [negb bind].
  do 3 eexists. do 3 (split; [reflexivity|]).
  split; [now rewrite !combineMap_length|].
  destruct (place_sum_combineMap js_and Z.land andb js_and_bits Z.land_spec eq_refl
              (bits a) (bits b) Ha Hb Hlen') as [Ha1 Ha2].
  destruct (place_sum_combineMap js_or Z.lor orb js_or_bits Z.lor_spec eq_refl
              (bits a) (bits b) Ha Hb Hlen') as [Ho1 Ho2].
  destruct (place_sum_combineMap js_xor Z.lxor xorb js_xor_bits Z.lxor_spec eq_refl
              (bits a) (bits b) Ha Hb Hlen') as [Hx1 Hx2].
  repeat split; assumption.
Qed.

(** ** Errors and widths *)

Section ErrorsAndWidths.

Implicit Types (a b : Binary) (l : list Z).

Lemma combineMap_st_length {St A B C} (fn : St -> A -> option B -> C * St)
    (a1 : list A) : forall (a2 : list B) (s : St),
  length (fst (combineMap_st a1 a2 fn s)) = length a1.
Proof.
  induction a1 as [|x a1 IH]; intros a2 s; cbn [combineMap_st]; [reflexivity|].
  destruct (fn s x (head a2)) as [y s1].
  specialize (IH (tail a2) s1).
  destruct (combineMap_st a1 (tail a2) fn s1) as [ys s2].
  cbn [fst length] in *. now rewrite IH.
Qed.

(** [add] returns whenever the widths agree, whatever the elements. *)
Lemma add_same_width_returns a b :
  length (bits a) = length (bits b) ->
  exists c s,
    add a (VBinary b) = Ok (new_Binary (c :: s)) /\ length s = length (bits a).
Proof.
  intros Hlen. unfold add, assertIsBinary, assertSameNumberOfBits. cbn [bind].
  unfold len. rewrite <- Hlen, Z.eqb_refl. cbn [negb bind].
  pose proof (combineMap_st_length add_step (reverse (bits a)) (reverse (bits b)) 0)
    as Hl.
  destruct (combineMap_st (reverse (bits a)) (reverse (bits b)) add_step 0)
    as [newBits carryBit].
  exists carryBit, (reverse newBits). split; [reflexivity|].
  cbn [fst] in Hl. unfold reverse in *. now rewrite length_rev in *.
Qed.

Lemma toSignedNumber_returns a : exists z, toSignedNumber a = Ok z.
Proof.
  unfold toSignedNumber.
  destruct (add_same_width_returns a (new_Binary (Array_from (len (bits a)) 1)))
    as (c & s & Hadd & _).
  { cbn [bits]. now rewrite Array_from_len. }
  rewrite Hadd. cbn [bind].
  destruct (bits a) as [|[|p|p] l]; eauto.
Qed.

(** The signed reading of a well-formed array that is not empty, from its
    unsigned value. *)
Lemma toSignedNumber_place_sum (x : Z) l :
  all_bits (x :: l) = true ->
  toSignedNumber (new_Binary (x :: l))
  = Ok (if place_sum (x :: l) <? 2 ^ len l then place_sum (x :: l)
        else place_sum (x :: l) - 2 ^ len (x :: l)).
Proof.
  intros Hl. pose proof (place_sum_msb x l Hl) as Hmsb.
  pose proof Hl as [[-> | ->] _]%all_bits_cons.
  - rewrite toSignedNumber_nonnegative.
    destruct (place_sum (0 :: l) <? 2 ^ len l) eqn:E; [reflexivity|]. lia.
  - rewrite toSignedNumber_negative by exact Hl.
    destruct (place_sum (1 :: l) <? 2 ^ len l) eqn:E; [|reflexivity].
    assert (2 ^ len l <= place_sum (1 :: l)) by now apply Hmsb. lia.
Qed.

Lemma zeroExtend_leading_zero a (nBits : Z) :
  len (bits a) < nBits ->
  zeroExtend a nBits
  = Ok (new_Binary
          (0 :: repeat 0 (Z.to_nat (nBits - len (bits a) - 1)) ++ bits a)).
Proof.
  intros Hw. rewrite zeroExtend_grows by exact Hw.
  replace (Z.to_nat (nBits - len (bits a)))
    with (S (Z.to_nat (nBits - len (bits a) - 1))) by lia.
  reflexivity.
Qed.

Lemma zeroExtend_all_bits a (nBits : Z) r :
  all_bits (bits a) = true -> zeroExtend a nBits = Ok r ->
  all_bits (bits r) = true.
Proof.
  intros Ha. unfold zeroExtend, Array_from.
  destruct (nBits <=? len (bits a)); [discriminate|].
  intros [= <-]. cbn [bits]. apply all_bits_app. split; [|exact Ha].
  now apply all_bits_repeat.
Qed.

Lemma zeroExtend_preserves_width_and_value a (nBits : Z) :
  len (bits a) < nBits ->
  exists r,
    zeroExtend a nBits = Ok r /\ len (bits r) = nBits /\
    toNumber r = toNumber a.
Proof.
  intros Hw. rewrite zeroExtend_grows by exact Hw.
  eexists. split; [reflexivity|]. cbn [bits].
  split.
  - rewrite len_app, len_repeat. lia.
  - rewrite !toNumber_place_sum. cbn [bits].
    rewrite place_sum_app, place_sum_repeat_0. lia.
Qed.

End ErrorsAndWidths.

(** X5. When the operand is not an instance of Binary, [add], [and],
    [or], [xor] and [zeroExtendToMatch] throw the "Not an instance of
    Binary" error, whatever the receiver. *)
Theorem not_a_Binary_throws (a : Binary) (other : value) :
  (forall b, other <> VBinary b) ->
  add a other = Throw NotABitVector /\
  and a other = Throw NotABitVector /\
  or a other = Throw NotABitVector /\
  xor a other = Throw NotABitVector /\
  zeroExtendToMatch a other = Throw NotABitVector.
Proof.
  intros Hother. destruct other as [z | | b |].
  3: now destruct (Hother b).
  all: repeat split.
Qed.

Lemma not_a_Binary_throws_witness :
  add (new_Binary [1;0]) (VInt 3) = Throw NotABitVector /\
  and (new_Binary [1;0]) (VInt 3) = Throw NotABitVector /\
  or (new_Binary [1;0]) (VInt 3) = Throw NotABitVector /\
  xor (new_Binary [1;0]) (VInt 3) = Throw NotABitVector /\
  zeroExtendToMatch (new_Binary [1;0]) (VInt 3) = Throw NotABitVector.
Proof. apply (not_a_Binary_throws (new_Binary [1;0]) (VInt 3)). discriminate. Defined.

(** X6. The elements stay bits: [fromUnsigned], [fromSigned] and [not]
    only return Binaries whose elements are all 0 or 1, and so do [add],
    [and], [or], [xor] and [zeroExtend] on Binaries whose elements are all
    0 or 1. *)
Theorem operations_keep_bits (a b r : Binary) (v : value) (w : Z) :
  (fromUnsigned v = Ok r -> all_bits (bits r) = true) /\
  (fromSigned v = Ok r -> all_bits (bits r) = true) /\
  all_bits (bits (not a)) = true /\
  (all_bits (bits a) = true ->
   (zeroExtend a w = Ok r -> all_bits (bits r) = true) /\
   (all_bits (bits b) = true ->
    (add a (VBinary b) = Ok r -> all_bits (bits r) = true) /\
    (and a (VBinary b) = Ok r -> all_bits (bits r) = true) /\
    (or a (VBinary b) = Ok r -> all_bits (bits r) = true) /\
    (xor a (VBinary b) = Ok r -> all_bits (bits r) = true))).
Proof.
  split; [|split; [|split; [rewrite not_bits; apply all_bits_map_flip|]]].
  - destruct v as [n | | |]; try discriminate.
    unfold fromUnsigned, Math_floor_log2.
    destruct (n =? 0); [now intros [= <-]|].
    destruct (0 <? n); intros [= <-]; [apply fromUnsigned_loop_all_bits | reflexivity].
  - destruct v as [n | | |]; try discriminate.
    destruct (Z.lt_trichotomy n 0) as [Hneg | [-> | Hpos]].
    + destruct (fromSigned_neg n Hneg) as (l & -> & Hl & _). now intros [= <-].
    + now intros [= <-].
    + destruct (fromSigned_pos n Hpos) as (l & Hu & ->).
      destruct (fromUnsigned_nonneg_spec n ltac:(lia)) as (l' & Hu' & Hl' & _).
      rewrite Hu in Hu'. injection Hu' as <-.
      intros [= <-]. apply all_bits_cons. split; [now left | exact Hl'].
  - intros Ha. split; [now apply zeroExtend_all_bits|].
    intros Hb.
    assert (Hwidth : forall r', add a (VBinary b) = Ok r' ->
                                len (bits a) = len (bits b)).
    { unfold add, assertIsBinary, assertSameNumberOfBits. cbn [bind].
      destruct (len (bits b) =? len (bits a)) eqn:E; [|discriminate].
      intros _ _. lia. }
    assert (Hwidth' : assertSameNumberOfBits a b = Ok tt ->
                      len (bits a) = len (bits b)).
    { intros H%assertSameNumberOfBits_Ok. unfold len. lia. }
    split; [|unfold and, or, xor, assertIsBinary; cbn [bind];
             destruct (assertSameNumberOfBits a b) as [[]|e] eqn:E; cbn [bind];
             [|repeat split; discriminate];
             destruct (bitwise_well_formed a b Ha Hb (Hwidth' eq_refl))
               as (ra & ro & rx & Hand & Hor & Hxor & _ & (Wa & Wo & Wx) & _);
             unfold and, or, xor, assertIsBinary in Hand, Hor, Hxor;
             cbn [bind] in Hand, Hor, Hxor; rewrite E in Hand, Hor, Hxor;
             cbn [bind] in Hand, Hor, Hxor;
             injection Hand as <-; injection Hor as <-; injection Hxor as <-;
             repeat split; intros [= <-]; assumption].
    intros Hadd. pose proof (Hwidth r Hadd) as Hlen.
    assert (Hlen' : length (bits a) = length (bits b)) by (unfold len in Hlen; lia).
    destruct (add_carry_sum a b Ha Hb Hlen') as (c & s & Hadd' & _ & Hs & Hc & _).
    rewrite Hadd in Hadd'. injection Hadd' as ->. cbn [bits].
    apply all_bits_cons. now split.
Qed.

Lemma operations_keep_bits_witness :
  all_bits [1;0;1;0] = true /\ all_bits [1;0;1;1] = true /\
  all_bits (bits (not (new_Binary [1;0;1;1]))) = true /\
  all_bits [0;0;1;0;1;1] = true /\
  all_bits [1;0;0;0;0] = true.
Proof.
  split.
  { destruct (operations_keep_bits (new_Binary []) (new_Binary [])
                (new_Binary [1;0;1;0]) (VInt 10) 0) as (H & _).
    apply H. reflexivity. }
  split.
  { destruct (operations_keep_bits (new_Binary []) (new_Binary [])
                (new_Binary [1;0;1;1]) (VInt (-5)) 0) as (_ & H & _).
    apply H. reflexivity. }
  split.
  { destruct (operations_keep_bits (new_Binary [1;0;1;1]) (new_Binary [])
                (new_Binary []) VOther 0) as (_ & _ & H & _).
    exact H. }
  split.
  { destruct (operations_keep_bits (new_Binary [1;0;1;1]) (new_Binary [])
                (new_Binary [0;0;1;0;1;1]) VOther 6) as (_ & _ & _ & H).
    destruct (H eq_refl) as (Hz & _). apply Hz. reflexivity. }
  destruct (operations_keep_bits (new_Binary [1;0;1;1]) (new_Binary [0;1;0;1])
              (new_Binary [1;0;0;0;0]) VOther 0) as (_ & _ & _ & H).
  destruct (H eq_refl) as (_ & Hb). destruct (Hb eq_refl) as (Hadd & _).
  apply Hadd. reflexivity.
Defined.

(** X7. For any Binary [a] and an integer [w] above its width,
    [a.zeroExtend(w).toSignedNumber()] is [a.toNumber()]: the extension
    puts a 0 in the sign position, so the signed reading of the result is
    the unsigned reading of [a]. *)
Theorem zeroExtend_toSignedNumber (a : Binary) (w : Z) :
  len (bits a) < w ->
  exists r, zeroExtend a w = Ok r /\ toSignedNumber r = Ok (toNumber a).
Proof.
  intros Hw. rewrite zeroExtend_leading_zero by exact Hw.
  eexists. split; [reflexivity|].
  rewrite toSignedNumber_nonnegative, toNumber_place_sum. f_equal.
  cbn [place_sum]. simpl (0 =? 1). cbv iota.
  rewrite place_sum_app, place_sum_repeat_0. lia.
Qed.

Lemma zeroExtend_toSignedNumber_witness :
  exists r,
    zeroExtend (new_Binary [1;0;1]) 5 = Ok r /\
    toSignedNumber r = Ok (toNumber (new_Binary [1;0;1])).
Proof. apply (zeroExtend_toSignedNumber (new_Binary [1;0;1]) 5). reflexivity. Defined.

(** X9. [a.zeroExtendToMatch(b)] throws the "Need to extend to a larger
    number of bits" error when [b] is not wider than [a]; so matching a
    Binary with itself, or with one of its own width, always throws. *)
Theorem zeroExtendToMatch_not_wider_throws (a b : Binary) :
  len (bits b) <= len (bits a) ->
  zeroExtendToMatch a (VBinary b) = Throw InvalidWidth /\
  zeroExtendToMatch a (VBinary a) = Throw InvalidWidth.
Proof.
  intros Hw. unfold zeroExtendToMatch, assertIsBinary, zeroExtend. cbn [bind].
  rewrite Z.leb_refl. destruct (len (bits b) <=? len (bits a)) eqn:E; [now split | lia].
Qed.

Lemma zeroExtendToMatch_not_wider_throws_witness :
  zeroExtendToMatch (new_Binary [1;0;1]) (VBinary (new_Binary [1;1;1])) = Throw InvalidWidth /\
  zeroExtendToMatch (new_Binary [1;0;1]) (VBinary (new_Binary [1;0;1])) = Throw InvalidWidth.
Proof.
  apply (zeroExtendToMatch_not_wider_throws (new_Binary [1;0;1]) (new_Binary [1;1;1])).
  discriminate.
Defined.

(** X10. [fromSigned(n)] throws the "Can only create Binary from
    integers." error exactly when [n] is not an integer: for every integer
    it returns a Binary, none of its calls of [zeroExtend] and [add]
    throwing. *)
Theorem fromSigned_throws_iff_not_integer (v : value) :
  (Number_isInteger v = false -> fromSigned v = Throw InvalidInput) /\
  (Number_isInteger v = true -> exists r, fromSigned v = Ok r) /\
  (forall e, fromSigned v = Throw e -> e = InvalidInput /\ Number_isInteger v = false).
Proof.
  assert (Hint : forall n, exists r, fromSigned (VInt n) = Ok r).
  { intros n. destruct (Z.lt_trichotomy n 0) as [Hneg | [-> | Hpos]].
    - destruct (fromSigned_neg n Hneg) as (l & -> & _). eauto.
    - eexists. reflexivity.
    - destruct (fromSigned_pos n Hpos) as (l & _ & ->). eauto. }
  destruct v as [n | | b |]; cbn [Number_isInteger fromSigned].
  - split; [discriminate|]. split; [intros _; apply Hint|].
    intros e He. destruct (Hint n) as [r Hr]. cbn [fromSigned] in Hr. congruence.
  - split; [reflexivity|]. split; [discriminate|]. now intros e [= <-].
  - split; [reflexivity|]. split; [discriminate|]. now intros e [= <-].
  - split; [reflexivity|]. split; [discriminate|]. now intros e [= <-].
Qed.

Lemma fromSigned_throws_iff_not_integer_witness :
  fromSigned VNonIntegral = Throw InvalidInput /\
  exists r, fromSigned (VInt (-6)) = Ok r.
Proof.
  split.
  - apply (fromSigned_throws_iff_not_integer VNonIntegral). reflexivity.
  - apply (fromSigned_throws_iff_not_integer (VInt (-6))). reflexivity.
Defined.

(** Signed addition with the sums of [toSignedNumber] in exact integers. *)
Lemma add_signed_exact (a b : Binary) (sa sb : Z) :
  all_bits (bits a) = true -> all_bits (bits b) = true ->
  len (bits a) = len (bits b) -> 0 < len (bits a) ->
  toSignedNumber a = Ok sa -> toSignedNumber b = Ok sb ->
  - 2 ^ (len (bits a) - 1) <= sa + sb < 2 ^ (len (bits a) - 1) ->
  exists r,
    add a (VBinary b) = Ok r /\
    toSignedNumber (new_Binary (slice1 (bits r))) = Ok (sa + sb).
Proof.
  intros Ha Hb Hlen Hpos Hsa Hsb Hrange.
  assert (Hlen' : length (bits a) = length (bits b)) by (unfold len in Hlen; lia).
  destruct (add_carry_sum a b Ha Hb Hlen') as (c & s & Hadd & Hls & Hs & Hc & Hsum).
  exists (new_Binary (c :: s)). split; [exact Hadd|]. cbn [bits slice1 tail].
  destruct a as [[|xa la]]; cbn [bits] in *; [rewrite len_nil in Hpos; lia|].
  destruct b as [[|xb lb]]; cbn [bits] in *; [discriminate Hlen'|].
  destruct s as [|xs ls]; [discriminate Hls|].
  rewrite toSignedNumber_place_sum in Hsa, Hsb by assumption.
  rewrite toSignedNumber_place_sum by exact Hs.
  assert (Hlb : len lb = len la) by (cbn [length] in Hlen'; unfold len; lia).
  assert (Hll : len ls = len la) by (cbn [length] in Hls; unfold len; lia).
  pose proof (place_sum_bounds (xa :: la)) as Hba.
  pose proof (place_sum_bounds (xb :: lb)) as Hbb.
  pose proof (place_sum_bounds (xs :: ls)) as Hbs.
  rewrite !pow2_len_cons in *. rewrite len_cons in Hrange.
  replace (len la + 1 - 1) with (len la) in Hrange by lia.
  rewrite Hlb, Hll in *.
  remember (place_sum (xa :: la)) as A eqn:HA. clear HA.
  remember (place_sum (xb :: lb)) as B eqn:HB. clear HB.
  remember (place_sum (xs :: ls)) as S' eqn:HS. clear HS.
  assert (sa = if A <? 2 ^ len la then A else A - 2 * 2 ^ len la) as -> by congruence.
  assert (sb = if B <? 2 ^ len la then B else B - 2 * 2 ^ len la) as -> by congruence.
  f_equal.
  destruct (A <? 2 ^ len la) eqn:Ea, (B <? 2 ^ len la) eqn:Eb,
           (S' <? 2 ^ len la) eqn:Es, Hc as [-> | ->]; lia.
Qed.

(** ** The helpers and a few identities *)

Lemma js_xor_twice (x y : Z) :
  (x = 0 \/ x = 1) -> (y = 0 \/ y = 1) ->
  js_xor (Some (js_xor (Some x) (Some y))) (Some y) = x.
Proof. now intros [-> | ->] [-> | ->]. Qed.

Lemma combineMap_xor_twice (a : list Z) : forall b : list Z,
  all_bits a = true -> all_bits b = true -> length a = length b ->
  combineMap
    (combineMap a b (fun bit1 bit2 => js_xor (Some bit1) bit2)) b
    (fun bit1 bit2 => js_xor (Some bit1) bit2)
  = a.
Proof.
  induction a as [|x a IH]; intros [|y b] Ha Hb Hlen; try discriminate; [reflexivity|].
  apply all_bits_cons in Ha as [Hx Ha]. apply all_bits_cons in Hb as [Hy Hb].
  injection Hlen as Hlen. cbn [combineMap head tail].
  now rewrite js_xor_twice, IH.
Qed.

(** X15. [combineMap(a1, a2, fn)] by index: the result has the length
    of [a1], and its element at [i] is [fn(a1[i], a2[i])], with
    [undefined] for [a2[i]] past the end of [a2]; elements of [a2] past
    the end of [a1] are not used. *)
Theorem combineMap_by_index {A B C} (fn : A -> option B -> C)
    (a1 : list A) (a2 : list B) :
  length (combineMap a1 a2 fn) = length a1 /\
  forall i : nat,
    combineMap a1 a2 fn !! i = option_map (fun x => fn x (a2 !! i)) (a1 !! i).
Proof.
  split; [apply combineMap_length|].
  revert a2. induction a1 as [|x a1 IH]; intros a2 i; [reflexivity|].
  cbn [combineMap]. destruct i as [|i].
  - cbn. now rewrite head_lookup.
  - change ((fn x (head a2) :: combineMap a1 (tail a2) fn) !! S i)
      with (combineMap a1 (tail a2) fn !! i).
    change ((x :: a1) !! S i) with (a1 !! i).
    now rewrite IH, lookup_tail.
Qed.

(** X17. Adding zero: for a Binary [a] whose elements are all 0 or 1,
    [a.add] of the all-zero Binary of the same width returns the bits of
    [a] behind a 0 carry bit. *)
Theorem add_zero (a : Binary) :
  all_bits (bits a) = true ->
  add a (VBinary (new_Binary (Array_from (len (bits a)) 0)))
  = Ok (new_Binary (0 :: bits a)).
Proof.
  intros Ha.
  destruct (add_carry_sum a (new_Binary (Array_from (len (bits a)) 0)))
    as (c & s & Hadd & Hls & Hs & Hc & Hsum); cbn [bits] in *.
  { exact Ha. }
  { unfold Array_from. now apply all_bits_repeat. }
  { now rewrite Array_from_len. }
  rewrite Hadd. unfold Array_from in Hsum. rewrite place_sum_repeat_0 in Hsum.
  pose proof (place_sum_bounds (bits a)) as Hba.
  pose proof (place_sum_bounds s) as Hbs.
  assert (Hl : len s = len (bits a)) by (unfold len; now rewrite Hls).
  rewrite Hl in Hbs.
  assert (c = 0) by (destruct Hc as [-> | ->]; lia). subst c.
  do 3 f_equal. apply place_sum_inj; auto. lia.
Qed.

Lemma add_zero_witness :
  add (new_Binary [1;0;1;1]) (VBinary (new_Binary (Array_from (len [1;0;1;1]) 0)))
  = Ok (new_Binary (0 :: [1;0;1;1])).
Proof. apply (add_zero (new_Binary [1;0;1;1])). reflexivity. Defined.

(** X18. [xor] undoes itself: for Binaries [a] and [b] of one width,
    every element 0 or 1, [a.xor(b).xor(b)] has the bits of [a]. *)
Theorem xor_twice (a b : Binary) :
  all_bits (bits a) = true -> all_bits (bits b) = true ->
  len (bits a) = len (bits b) ->
  exists c, xor a (VBinary b) = Ok c /\ xor c (VBinary b) = Ok a.
Proof.
  intros Ha Hb Hlen.
  assert (Hlen' : length (bits a) = length (bits b)) by (unfold len in Hlen; lia).
  unfold xor, assertIsBinary, assertSameNumberOfBits. cbn [bind].
  rewrite <- Hlen, Z.eqb_refl. cbn [negb bind].
  eexists. split; [reflexivity|]. cbn [bits].
  unfold len at 1 2. rewrite combineMap_length, Z.eqb_refl. cbn [negb bind].
  rewrite combineMap_xor_twice by assumption. now destruct a.
Qed.

Lemma xor_twice_witness :
  exists c,
    xor (new_Binary [1;0;1;1]) (VBinary (new_Binary [1;1;0;1])) = Ok c /\
    xor c (VBinary (new_Binary [1;1;0;1])) = Ok (new_Binary [1;0;1;1]).
Proof.
  apply (xor_twice (new_Binary [1;0;1;1]) (new_Binary [1;1;0;1])); reflexivity.
Defined.

(** X19. The helper [reverse], over the store: called on an array, it
    returns a new array that holds the elements in reverse order, and the
    array it was called on, like every other object, is as it was. *)
Theorem store_reverse_copies (h : list Store.cell) (a : Store.loc) (l : list Z) :
  h !! a = Some (Store.ArrayCell l) ->
  exists r,
    snd (Store.reverse a h) = Ok r /\
    (length h <= r)%nat /\
    fst (Store.reverse a h) !! r = Some (Store.ArrayCell (reverse l)) /\
    fst (Store.reverse a h) !! a = Some (Store.ArrayCell l) /\
    forall o c, h !! o = Some c -> fst (Store.reverse a h) !! o = Some c.
Proof.
  intros Ha. rewrite (run_reverse h a l Ha). cbn [fst snd].
  exists (length h). split; [reflexivity|]. split; [lia|].
  split; [apply lookup_new|]. split; [now apply lookup_old|].
  intros o c. apply lookup_old.
Qed.

Lemma store_reverse_copies_witness :
  let h := [Store.ArrayCell [1;1;0]] in
  exists r,
    snd (Store.reverse 0%nat h) = Ok r /\
    (length h <= r)%nat /\
    fst (Store.reverse 0%nat h) !! r = Some (Store.ArrayCell (reverse [1;1;0])) /\
    fst (Store.reverse 0%nat h) !! 0%nat = Some (Store.ArrayCell [1;1;0]) /\
    forall o c, h !! o = Some c -> fst (Store.reverse 0%nat h) !! o = Some c.
Proof.
  intros h. apply (store_reverse_copies h 0%nat [1;1;0]). reflexivity.
Defined.

(** ** The two embeddings agree *)

Lemma bits_of_added (h : list Store.cell) (cells : list Store.cell)
    (i j : nat) (l : list Z) :
  cells !! i = Some (Store.BinaryCell (length h + j)) ->
  cells !! j = Some (Store.ArrayCell l) ->
  Store.bits_of (h ++ cells) (length h + i) = Some l.
Proof.
  intros Hi Hj. apply bits_of_lookup. exists (length h + j)%nat.
  now rewrite !lookup_added.
Qed.

(** X20. Over the store, on Binaries whose [bits] are arrays, every
    method returns or throws what it does on the arrays as values: a
    method that returns a Binary returns a new one with the bits computed
    on the values, [toNumber] returns the same number and adds no object,
    and [toSignedNumber] returns the same number. *)
Theorem store_methods_compute_values (h : list Store.cell)
    (this other : Store.loc) (l l' : list Z) (w : Z) :
  Store.bits_of h this = Some l -> Store.bits_of h other = Some l' ->
  let agree (m : Store.M Store.loc) (v : result Binary) :=
    exists ext,
      match v with
      | Ok b => exists r, m h = (h ++ ext, Ok r) /\
                          Store.bits_of (h ++ ext) r = Some (bits b)
      | Throw e => m h = (h ++ ext, Throw e)
      end in
  agree (Store.add this (Store.Ref other))
        (add (new_Binary l) (VBinary (new_Binary l'))) /\
  agree (Store.and this (Store.Ref other))
        (and (new_Binary l) (VBinary (new_Binary l'))) /\
  agree (Store.or this (Store.Ref other))
        (or (new_Binary l) (VBinary (new_Binary l'))) /\
  agree (Store.xor this (Store.Ref other))
        (xor (new_Binary l) (VBinary (new_Binary l'))) /\
  agree (Store.not this) (Ok (not (new_Binary l))) /\
  agree (Store.zeroExtend this w) (zeroExtend (new_Binary l) w) /\
  agree (Store.zeroExtendToMatch this (Store.Ref other))
        (zeroExtendToMatch (new_Binary l) (VBinary (new_Binary l'))) /\
  Store.toNumber this h = (h, Ok (toNumber (new_Binary l))) /\
  exists ext,
    Store.toSignedNumber this h = (h ++ ext, toSignedNumber (new_Binary l)).
Proof.
  intros Hthis Hother agree.
  assert (Hpair : forall (m : Store.M Store.loc) (v : result Binary),
             m h = match v with
                   | Ok b => (h ++ [Store.ArrayCell (bits b);
                                    Store.BinaryCell (length h)],
                              Ok (S (length h)))
                   | Throw e => (h, Throw e)
                   end ->
             agree m v).
  { intros m [b | e] Hm.
    - eexists. exists (S (length h)). split; [exact Hm|].
      replace (S (length h)) with (length h + 1)%nat by lia.
      apply (bits_of_added h _ 1 0); [|reflexivity].
      cbn. now rewrite Nat.add_0_r.
    - exists []. now rewrite app_nil_r. }
  assert (Hext : agree (Store.zeroExtend this w) (zeroExtend (new_Binary l) w)).
  { pose proof (store_zeroExtend h this l w Hthis) as H.
    destruct (zeroExtend (new_Binary l) w) as [b | e].
    - eexists. exists (S (S (length h))). split; [exact H|].
      replace (S (S (length h))) with (length h + 2)%nat by lia.
      apply (bits_of_added h _ 2 1); [|reflexivity].
      cbn. now rewrite Nat.add_1_r.
    - exists []. now rewrite app_nil_r. }
  destruct (store_and_or_xor h this other l l' Hthis Hother) as (Hand & Hor & Hxor).
  split; [apply (store_add_bits h this other l l' Hthis Hother)|].
  split; [now apply Hpair|]. split; [now apply Hpair|]. split; [now apply Hpair|].
  split.
  { destruct (store_not_bits h this l Hthis) as (ext & r & Hnot & Hr).
    exists ext, r. now split. }
  split; [exact Hext|].
  split.
  { destruct (store_zeroExtendToMatch h this other l l' Hthis Hother) as [H1 H2].
    unfold agree. rewrite H1, H2.
    pose proof (store_zeroExtend h this l (len l') Hthis) as H.
    destruct (zeroExtend (new_Binary l) (len l')) as [b | e].
    - eexists. exists (S (S (length h))). split; [exact H|].
      replace (S (S (length h))) with (length h + 2)%nat by lia.
      apply (bits_of_added h _ 2 1); [|reflexivity].
      cbn. now rewrite Nat.add_1_r.
    - exists []. now rewrite app_nil_r. }
  split; [now apply store_toNumber | now apply store_toSignedNumber].
Qed.

Lemma store_methods_compute_values_witness :
  let h := [Store.ArrayCell [1;0;1;1]; Store.BinaryCell 0%nat;
            Store.ArrayCell [0;1;0;1]; Store.BinaryCell 2%nat] in
  (exists ext r,
     Store.add 1%nat (Store.Ref 3%nat) h = (h ++ ext, Ok r) /\
     Store.bits_of (h ++ ext) r = Some [1;0;0;0;0]) /\
  Store.toNumber 1%nat h = (h, Ok 11) /\
  exists ext, Store.toSignedNumber 1%nat h = (h ++ ext, Ok (-5)).
Proof.
  intros h.
  destruct (store_methods_compute_values h 1%nat 3%nat [1;0;1;1] [0;1;0;1] 0
              eq_refl eq_refl)
    as ([ext Hadd] & _ & _ & _ & _ & _ & _ & Hnum & Hsigned).
  split; [exists ext; exact Hadd|]. split; [exact Hnum | exact Hsigned].
Defined.


(** * Part IV: the sums in doubles and the logarithm of the host *)

(** ** Where rounding changes nothing *)

Section Rounding.

Implicit Types (z t : Z) (l : list Z).

Lemma round_small z : Z.abs z < 2 ^ 53 -> Double.round z = Double.Finite z.
Proof. intros Hz. unfold Double.round. destruct (Z.abs z <? 2 ^ 53) eqn:E; [reflexivity | lia]. Qed.

(** An even integer below 2^54 is a double. *)
Lemma round_even z : 0 <= z < 2 ^ 54 -> (2 | z) -> Double.round z = Double.Finite z.
Proof.
  intros Hz [c ->]. destruct (Z_lt_le_dec (c * 2) (2 ^ 53)) as [Hlt | Hge].
  { apply round_small. lia. }
  unfold Double.round. rewrite Z.abs_eq by lia.
  destruct (c * 2 <? 2 ^ 53) eqn:E; [lia|]. clear E.
  assert (Hlog : Z.log2 (c * 2) = 53).
  { apply Z.log2_unique; [lia|]. change (Z.succ 53) with 54. lia. }
  rewrite Hlog. change (53 - 52) with 1. change (2 ^ 1) with 2.
  change (2 ^ (1 - 1)) with 1.
  rewrite Z.mod_mul, Z.div_mul by lia. cbn [Z.ltb Z.compare].
  destruct (2 ^ 1024 <=? c * 2) eqn:E.
  { apply Z.leb_le in E. assert (2 ^ 54 < 2 ^ 1024) by reflexivity. lia. }
  rewrite Z.sgn_pos by lia. f_equal. lia.
Qed.

Lemma pow2_exact (p : Z) : 0 <= p <= 53 -> Double.pow2 p = Double.Finite (2 ^ p).
Proof.
  intros Hp. unfold Double.pow2. destruct (Z.eq_dec p 53) as [-> | Hne].
  - apply round_even; [split; [lia | reflexivity]|]. now exists (2 ^ 52).
  - apply round_small. rewrite Z.abs_eq by (apply Z.pow_nonneg; lia).
    apply Z.pow_lt_mono_r; lia.
Qed.

Lemma divide_pow2_cons (x : Z) l t : (2 ^ len (x :: l) | t) -> (2 ^ len l | t).
Proof.
  intros H. apply Z.divide_trans with (2 ^ len (x :: l)); [|exact H].
  rewrite pow2_len_cons. now exists 2.
Qed.

Lemma divide_2_pow2_cons (x : Z) l t : (2 ^ len (x :: l) | t) -> (2 | t).
Proof.
  intros H. apply Z.divide_trans with (2 ^ len (x :: l)); [|exact H].
  rewrite pow2_len_cons. exists (2 ^ len l). lia.
Qed.

(** The loop of [toNumber] on an array that ends at the units: while the
    running total and what is left stay below 2^54, every sum but the last
    is exact, and the total is the nearest double to the exact sum. *)
Lemma forEach_from_round (L : Z) l : forall (i t : Z),
  l <> [] -> L = i + len l -> 0 <= t -> (2 ^ len l | t) ->
  t + 2 ^ len l <= 2 ^ 54 ->
  forEach_from l i
    (fun total bit i =>
       if bit =? 1 then Double.plus total (Double.pow2 (L - i - 1)) else total)
    (Double.Finite t)
  = Double.round (t + place_sum l).
Proof.
  induction l as [|x l IH]; intros i t Hne HL Ht Hdiv Hbound; [contradiction|].
  pose proof (len_nonneg l) as Hlen. pose proof (pow2_len_pos l) as Hpow.
  pose proof (divide_pow2_cons x l t Hdiv) as Hdiv'.
  pose proof (divide_2_pow2_cons x l t Hdiv) as Heven.
  rewrite pow2_len_cons in Hbound. rewrite len_cons in HL.
  cbn [forEach_from place_sum]. replace (L - i - 1) with (len l) by lia.
  destruct l as [|y l].
  - (* the last element *)
    cbn [forEach_from place_sum]. change (len (@nil Z)) with 0 in *.
    change (2 ^ 0) with 1 in *.
    destruct (x =? 1).
    + rewrite pow2_exact by lia. cbn [Double.plus]. f_equal; lia.
    + rewrite Z.add_0_l, Z.add_0_r. symmetry. apply round_even; [lia | exact Heven].
  - assert (Hp : len (y :: l) <= 53).
    { assert (2 ^ len (y :: l) < 2 ^ 54) by lia.
      apply Z.pow_lt_mono_r_iff in H; lia. }
    assert (Hstep : (if x =? 1 then Double.plus (Double.Finite t) (Double.pow2 (len (y :: l)))
                     else Double.Finite t)
                    = Double.Finite (t + (if x =? 1 then 2 ^ len (y :: l) else 0))).
    { destruct (x =? 1); [|now rewrite Z.add_0_r].
      rewrite pow2_exact by lia. cbn [Double.plus]. apply round_even; [lia|].
      apply Z.divide_add_r; [exact Heven|].
      rewrite pow2_len_cons. exists (2 ^ len l). lia. }
    rewrite Hstep, IH.
    + f_equal; lia.
    + discriminate.
    + lia.
    + destruct (x =? 1); lia.
    + apply Z.divide_add_r; [exact Hdiv'|]. destruct (x =? 1).
      * apply Z.divide_refl.
      * apply Z.divide_0_r.
    + destruct (x =? 1); lia.
Qed.

(** Up to width 54, [toNumber()] is the double nearest to the exact sum. *)
Lemma toNumber_round l :
  len l <= 54 -> Double.toNumber (new_Binary l) = Double.round (place_sum l).
Proof.
  intros Hl. unfold Double.toNumber, forEach. cbn [bits].
  destruct l as [|x l]; [reflexivity|].
  rewrite forEach_from_round; try (f_equal; lia); try discriminate.
  - apply Z.divide_0_r.
  - rewrite Z.add_0_l. apply Z.pow_le_mono_r; lia.
Qed.

(** Up to width 53, [toNumber()] is the exact sum. *)
Lemma toNumber_exact l :
  len l <= 53 -> Double.toNumber (new_Binary l) = Double.Finite (place_sum l).
Proof.
  intros Hl. rewrite toNumber_round by lia. apply round_small.
  pose proof (place_sum_bounds l) as Hb. rewrite Z.abs_eq by lia.
  assert (2 ^ len l <= 2 ^ 53) by (apply Z.pow_le_mono_r; lia). lia.
Qed.

(** Up to width 53, [toSignedNumber()] returns or throws what it does
    with exact sums. *)
Lemma toSignedNumber_exact (v : Binary) :
  len (bits v) <= 53 ->
  Double.toSignedNumber v = (let* z := toSignedNumber v in Ok (Double.Finite z)).
Proof.
  intros Hl. unfold Double.toSignedNumber, toSignedNumber.
  assert (Hnum : Double.toNumber v = Double.Finite (toNumber v)).
  { destruct v as [l]. rewrite toNumber_exact by exact Hl.
    now rewrite toNumber_place_sum. }
  destruct (add_same_width_returns v (new_Binary (Array_from (len (bits v)) 1)))
    as (c & s & Hadd & Hs).
  { cbn [bits]. now rewrite Array_from_len. }
  rewrite Hadd. cbn [bind bits not slice1 map tail].
  rewrite toNumber_exact, toNumber_place_sum
    by (rewrite len_map; unfold len in *; lia).
  cbn [bits Double.opp]. rewrite Hnum.
  destruct (bits v) as [|[|p|p] l]; reflexivity.
Qed.

End Rounding.

(** ** [add] and [toSignedNumber] with the sums in doubles *)

(** The sum bits of [add] as exact binary numerals. *)
Lemma add_numerals (a b : Binary) :
  all_bits (bits a) = true -> all_bits (bits b) = true ->
  len (bits a) = len (bits b) ->
  exists newBits carryBit,
    combineMap_st (reverse (bits a)) (reverse (bits b)) add_step 0
      = (newBits, carryBit) /\
    add a (VBinary b) = Ok (new_Binary (carryBit :: reverse newBits)) /\
    len (carryBit :: reverse newBits) = len (bits a) + 1 /\
    all_bits (carryBit :: reverse newBits) = true /\
    place_sum (carryBit :: reverse newBits)
      = place_sum (bits a) + place_sum (bits b) /\
    carryBit = (place_sum (bits a) + place_sum (bits b)) / 2 ^ len (bits a) /\
    place_sum (reverse newBits)
      = (place_sum (bits a) + place_sum (bits b)) mod 2 ^ len (bits a).
Proof.
  intros Ha Hb Hlen.
  assert (Hlen' : length (bits a) = length (bits b)) by (unfold len in Hlen; lia).
  destruct (add_carry_sum a b Ha Hb Hlen') as (c & s & Hadd & Hls & Hs & Hc & Hsum).
  destruct (combineMap_st (reverse (bits a)) (reverse (bits b)) add_step 0)
    as [newBits carryBit] eqn:Hrun.
  assert (Hadd' : add a (VBinary b) = Ok (new_Binary (carryBit :: reverse newBits))).
  { unfold add, assertIsBinary, assertSameNumberOfBits. cbn [bind].
    rewrite <- Hlen, Z.eqb_refl. cbn [negb bind]. now rewrite Hrun. }
  rewrite Hadd' in Hadd. injection Hadd as Hc_eq Hs_eq. subst c s.
  exists newBits, carryBit. split; [reflexivity|]. split; [exact Hadd'|].
  assert (Hl : len (reverse newBits) = len (bits a)) by (unfold len; now rewrite Hls).
  pose proof (place_sum_bounds (reverse newBits)) as Hbs. rewrite Hl in Hbs.
  pose proof (pow2_len_pos (bits a)) as Hpos.
  rewrite place_sum_bit_cons by exact Hc. rewrite Hl.
  split; [rewrite len_cons; lia|].
  split; [apply all_bits_cons; now split|].
  split; [exact Hsum|].
  rewrite <- Hsum.
  split.
  - symmetry. rewrite Z.add_comm. rewrite Z.div_add by lia.
    rewrite Z.div_small by lia. lia.
  - rewrite Z.add_comm, Z.mod_add by lia. symmetry. apply Z.mod_small. lia.
Qed.

(** Up to width 53 the method reads the sum as the language adds the
    readings of the operands. *)
Lemma add_width_and_sum_parts (a b : Binary) :
  all_bits (bits a) = true -> all_bits (bits b) = true ->
  len (bits a) = len (bits b) -> len (bits a) <= 53 ->
  exists r,
    add a (VBinary b) = Ok r /\
    len (bits r) = len (bits a) + 1 /\
    Double.toNumber r = Double.plus (Double.toNumber a) (Double.toNumber b).
Proof.
  intros Ha Hb Hlen Hl.
  destruct (add_numerals a b Ha Hb Hlen)
    as (newBits & carryBit & _ & Hadd & Hw & _ & Hsum & _).
  eexists. split; [exact Hadd|]. cbn [bits]. split; [exact Hw|].
  destruct a as [la], b as [lb]. cbn [bits] in *.
  rewrite (toNumber_exact la), (toNumber_exact lb) by lia. cbn [Double.plus].
  rewrite toNumber_round by lia. now rewrite Hsum.
Qed.

(** C3, as the code has it.  For Binaries [a] and [b] of one width L,
    every element 0 or 1, [a.add(b)] returns a Binary of width L + 1 whose
    bits are the exact binary sum of the bits of [a] and of [b]: the first
    is the carry the loop ends with, the quotient of the sum by 2^L, and
    the other L hold the remainder, so [add] loses nothing.  For L <= 53,
    [a.add(b).toNumber()] is [a.toNumber() + b.toNumber()] as the language
    computes it, and for L <= 52 the three numbers are the exact integers. *)
Theorem add_width_and_sum (a b : Binary) :
  all_bits (bits a) = true -> all_bits (bits b) = true ->
  len (bits a) = len (bits b) ->
  exists newBits carryBit,
    combineMap_st (reverse (bits a)) (reverse (bits b)) add_step 0
      = (newBits, carryBit) /\
    add a (VBinary b) = Ok (new_Binary (carryBit :: reverse newBits)) /\
    len (carryBit :: reverse newBits) = len (bits a) + 1 /\
    all_bits (carryBit :: reverse newBits) = true /\
    place_sum (carryBit :: reverse newBits)
      = place_sum (bits a) + place_sum (bits b) /\
    carryBit = (place_sum (bits a) + place_sum (bits b)) / 2 ^ len (bits a) /\
    place_sum (reverse newBits)
      = (place_sum (bits a) + place_sum (bits b)) mod 2 ^ len (bits a) /\
    (len (bits a) <= 53 ->
     Double.toNumber (new_Binary (carryBit :: reverse newBits))
     = Double.plus (Double.toNumber a) (Double.toNumber b)) /\
    (len (bits a) <= 52 ->
     Double.toNumber a = Double.Finite (place_sum (bits a)) /\
     Double.toNumber b = Double.Finite (place_sum (bits b)) /\
     Double.toNumber (new_Binary (carryBit :: reverse newBits))
     = Double.Finite (place_sum (bits a) + place_sum (bits b))).
Proof.
  intros Ha Hb Hlen.
  destruct (add_numerals a b Ha Hb Hlen)
    as (newBits & carryBit & Hrun & Hadd & Hw & Hbits & Hsum & Hcarry & Hrem).
  exists newBits, carryBit.
  do 7 (split; [assumption|]).
  assert (Hab : len (bits a) <= 53 ->
                Double.toNumber a = Double.Finite (place_sum (bits a)) /\
                Double.toNumber b = Double.Finite (place_sum (bits b))).
  { intros Hl. destruct a as [la], b as [lb]. cbn [bits] in *.
    split; apply toNumber_exact; lia. }
  split.
  - intros Hl. destruct (Hab Hl) as [-> ->]. cbn [Double.plus].
    rewrite toNumber_round by lia. now rewrite Hsum.
  - intros Hl. destruct (Hab ltac:(lia)) as [-> ->]. do 2 (split; [reflexivity|]).
    rewrite toNumber_exact by lia. now rewrite Hsum.
Qed.

Lemma add_width_and_sum_witness :
  exists newBits carryBit,
    combineMap_st (reverse [1;0;1;1]) (reverse [0;1;0;1]) add_step 0
      = (newBits, carryBit) /\
    add (new_Binary [1;0;1;1]) (VBinary (new_Binary [0;1;0;1]))
      = Ok (new_Binary (carryBit :: reverse newBits)) /\
    len (carryBit :: reverse newBits) = len [1;0;1;1] + 1 /\
    all_bits (carryBit :: reverse newBits) = true /\
    place_sum (carryBit :: reverse newBits) = place_sum [1;0;1;1] + place_sum [0;1;0;1] /\
    carryBit = (place_sum [1;0;1;1] + place_sum [0;1;0;1]) / 2 ^ len [1;0;1;1] /\
    place_sum (reverse newBits)
      = (place_sum [1;0;1;1] + place_sum [0;1;0;1]) mod 2 ^ len [1;0;1;1] /\
    (len [1;0;1;1] <= 53 ->
     Double.toNumber (new_Binary (carryBit :: reverse newBits))
     = Double.plus (Double.toNumber (new_Binary [1;0;1;1]))
                   (Double.toNumber (new_Binary [0;1;0;1]))) /\
    (len [1;0;1;1] <= 52 ->
     Double.toNumber (new_Binary [1;0;1;1]) = Double.Finite (place_sum [1;0;1;1]) /\
     Double.toNumber (new_Binary [0;1;0;1]) = Double.Finite (place_sum [0;1;0;1]) /\
     Double.toNumber (new_Binary (carryBit :: reverse newBits))
     = Double.Finite (place_sum [1;0;1;1] + place_sum [0;1;0;1])).
Proof.
  apply (add_width_and_sum (new_Binary [1;0;1;1]) (new_Binary [0;1;0;1]));
    reflexivity.
Defined.

(** C3 as stated fails at width 54: for [a] = 1, 52 zeros, 1 and [b] =
    53 zeros, 1, both of bits, [a.add(b).toNumber()] is 2^53 + 2 and
    [a.toNumber() + b.toNumber()] is 2^53. *)
Lemma add_toNumber_differs_at_width_54 :
  all_bits ([1] ++ repeat 0 52 ++ [1]) = true /\
  all_bits (repeat 0 53 ++ [1]) = true /\
  len ([1] ++ repeat 0 52 ++ [1]) = len (repeat 0 53 ++ [1]) /\
  exists r,
    add (new_Binary ([1] ++ repeat 0 52 ++ [1]))
        (VBinary (new_Binary (repeat 0 53 ++ [1]))) = Ok r /\
    Double.toNumber r = Double.Finite (2 ^ 53 + 2) /\
    Double.plus (Double.toNumber (new_Binary ([1] ++ repeat 0 52 ++ [1])))
                (Double.toNumber (new_Binary (repeat 0 53 ++ [1])))
    = Double.Finite (2 ^ 53) /\
    Double.toNumber r
    <> Double.plus (Double.toNumber (new_Binary ([1] ++ repeat 0 52 ++ [1])))
                   (Double.toNumber (new_Binary (repeat 0 53 ++ [1]))).
Proof.
  do 3 (split; [reflexivity|]). eexists. split; [reflexivity|].
  split; [vm_compute; reflexivity|]. split; [vm_compute; reflexivity|].
  vm_compute. discriminate.
Qed.

(** C10, as the code has it.  For a Binary [v] of width L <= 53, every
    element 0 or 1, whose first bit is 1, [toSignedNumber()] returns
    [toNumber() - 2^L], and both are exact: [toNumber()] is the numeral of
    the bits and the result is that integer less 2^L. *)
Theorem toSignedNumber_twos_complement_to_width_53 (v : Binary) :
  all_bits (bits v) = true -> head (bits v) = Some 1 ->
  len (bits v) <= 53 ->
  Double.toSignedNumber v
  = Ok (Double.minus (Double.toNumber v) (Double.pow2 (len (bits v)))) /\
  Double.toNumber v = Double.Finite (place_sum (bits v)) /\
  Double.toSignedNumber v
  = Ok (Double.Finite (place_sum (bits v) - 2 ^ len (bits v))).
Proof.
  destruct v as [[|x l]]; cbn [bits]; intros Hbits Hhd Hlen; [discriminate Hhd|].
  injection Hhd as ->.
  pose proof (place_sum_bounds (1 :: l)) as Hb.
  pose proof (proj1 (place_sum_msb 1 l Hbits) eq_refl) as Hmsb.
  pose proof (len_nonneg (1 :: l)) as Hnn.
  assert (Hpow : 2 ^ len (1 :: l) <= 2 ^ 53) by (apply Z.pow_le_mono_r; lia).
  rewrite toSignedNumber_exact by exact Hlen.
  rewrite toSignedNumber_negative by exact Hbits. cbn [bind].
  rewrite toNumber_exact by exact Hlen.
  rewrite pow2_exact by lia.
  split; [|split; reflexivity].
  unfold Double.minus. cbn [Double.opp Double.plus].
  rewrite round_small by (rewrite pow2_len_cons in *; lia).
  do 2 f_equal; lia.
Qed.

Lemma toSignedNumber_twos_complement_to_width_53_witness :
  Double.toSignedNumber (new_Binary [1;1;0;1])
  = Ok (Double.minus (Double.toNumber (new_Binary [1;1;0;1]))
                     (Double.pow2 (len [1;1;0;1]))) /\
  Double.toNumber (new_Binary [1;1;0;1]) = Double.Finite (place_sum [1;1;0;1]) /\
  Double.toSignedNumber (new_Binary [1;1;0;1])
  = Ok (Double.Finite (place_sum [1;1;0;1] - 2 ^ len [1;1;0;1])).
Proof.
  apply (toSignedNumber_twos_complement_to_width_53 (new_Binary [1;1;0;1]));
    [reflexivity | reflexivity | discriminate].
Defined.

(** C10 as stated fails at width 54: for [v] = 1, 52 zeros, 1, of bits
    and with first bit 1, [toSignedNumber()] is -(2^53 - 1) and
    [toNumber() - 2^54] is -2^53. *)
Lemma toSignedNumber_differs_at_width_54 :
  all_bits ([1] ++ repeat 0 52 ++ [1]) = true /\
  head ([1] ++ repeat 0 52 ++ [1]) = Some 1 /\
  len ([1] ++ repeat 0 52 ++ [1]) = 54 /\
  Double.toSignedNumber (new_Binary ([1] ++ repeat 0 52 ++ [1]))
  = Ok (Double.Finite (- (2 ^ 53 - 1))) /\
  Double.minus (Double.toNumber (new_Binary ([1] ++ repeat 0 52 ++ [1])))
               (Double.pow2 54)
  = Double.Finite (- 2 ^ 53) /\
  Double.toSignedNumber (new_Binary ([1] ++ repeat 0 52 ++ [1]))
  <> Ok (Double.minus (Double.toNumber (new_Binary ([1] ++ repeat 0 52 ++ [1])))
                      (Double.pow2 54)).
Proof.
  do 3 (split; [reflexivity|]). do 2 (split; [vm_compute; reflexivity|]).
  vm_compute. discriminate.
Qed.

(** ** The other methods with the sums in doubles *)

(** X2. For a Binary [a] of width L <= 53 whose elements are all 0 or 1,
    [a.toNumber()] is the numeral [t] of its bits and
    [a.not().toNumber()] is [2^L - 1 - t]. *)
Theorem not_ones_complement (a : Binary) :
  all_bits (bits a) = true -> len (bits a) <= 53 ->
  exists t,
    Double.toNumber a = Double.Finite t /\
    Double.toNumber (not a) = Double.Finite (2 ^ len (bits a) - 1 - t).
Proof.
  destruct a as [l]. cbn [bits]. intros Ha Hl. exists (place_sum l).
  split; [now apply toNumber_exact|].
  unfold not. cbn [bits]. rewrite toNumber_exact by now rewrite len_map.
  f_equal. now apply place_sum_map_flip.
Qed.

Lemma not_ones_complement_witness :
  exists t,
    Double.toNumber (new_Binary [1;0;1;1]) = Double.Finite t /\
    Double.toNumber (not (new_Binary [1;0;1;1]))
    = Double.Finite (2 ^ len [1;0;1;1] - 1 - t).
Proof.
  apply (not_ones_complement (new_Binary [1;0;1;1])); [reflexivity | discriminate].
Defined.

(** X4. For Binaries [a] and [b] of one width L <= 53, every element 0
    or 1, [and], [or] and [xor] return Binaries of width L, every element
    0 or 1, whose [toNumber()] is the bitwise and, or and exclusive or of
    [a.toNumber()] and [b.toNumber()]. *)
Theorem bitwise_toNumber (a b : Binary) :
  all_bits (bits a) = true -> all_bits (bits b) = true ->
  len (bits a) = len (bits b) -> len (bits a) <= 53 ->
  exists ra ro rx ta tb,
    and a (VBinary b) = Ok ra /\ or a (VBinary b) = Ok ro /\
    xor a (VBinary b) = Ok rx /\
    len (bits ra) = len (bits a) /\ len (bits ro) = len (bits a) /\
    len (bits rx) = len (bits a) /\
    all_bits (bits ra) = true /\ all_bits (bits ro) = true /\
    all_bits (bits rx) = true /\
    Double.toNumber a = Double.Finite ta /\
    Double.toNumber b = Double.Finite tb /\
    Double.toNumber ra = Double.Finite (Z.land ta tb) /\
    Double.toNumber ro = Double.Finite (Z.lor ta tb) /\
    Double.toNumber rx = Double.Finite (Z.lxor ta tb).
Proof.
  intros Ha Hb Hlen Hl.
  destruct (bitwise_well_formed a b Ha Hb Hlen)
    as (ra & ro & rx & Hand & Hor & Hxor & (La & Lo & Lx) & (Wa & Wo & Wx) & Va & Vo & Vx).
  exists (new_Binary ra), (new_Binary ro), (new_Binary rx),
         (place_sum (bits a)), (place_sum (bits b)).
  cbn [bits]. unfold len in *. rewrite La, Lo, Lx.
  do 9 (split; [assumption || reflexivity|]).
  destruct a as [la], b as [lb]. cbn [bits] in *.
  rewrite !toNumber_exact by (unfold len; lia).
  rewrite Va, Vo, Vx. repeat split.
Qed.

Lemma bitwise_toNumber_witness :
  exists ra ro rx ta tb,
    and (new_Binary [1;0;1;1]) (VBinary (new_Binary [1;1;0;1])) = Ok ra /\
    or (new_Binary [1;0;1;1]) (VBinary (new_Binary [1;1;0;1])) = Ok ro /\
    xor (new_Binary [1;0;1;1]) (VBinary (new_Binary [1;1;0;1])) = Ok rx /\
    len (bits ra) = len [1;0;1;1] /\ len (bits ro) = len [1;0;1;1] /\
    len (bits rx) = len [1;0;1;1] /\
    all_bits (bits ra) = true /\ all_bits (bits ro) = true /\
    all_bits (bits rx) = true /\
    Double.toNumber (new_Binary [1;0;1;1]) = Double.Finite ta /\
    Double.toNumber (new_Binary [1;1;0;1]) = Double.Finite tb /\
    Double.toNumber ra = Double.Finite (Z.land ta tb) /\
    Double.toNumber ro = Double.Finite (Z.lor ta tb) /\
    Double.toNumber rx = Double.Finite (Z.lxor ta tb).
Proof.
  apply (bitwise_toNumber (new_Binary [1;0;1;1]) (new_Binary [1;1;0;1]));
    [reflexivity | reflexivity | reflexivity | discriminate].
Defined.

(** X8. For Binaries [a] and [b], every element 0 or 1, with [b]
    narrower than [a] and [a] of width at most 53:
    [b.zeroExtendToMatch(a)] returns a Binary of the width of [a] with the
    [toNumber()] of [b], and [a.add] of it returns a Binary one bit wider
    whose [toNumber()] is [a.toNumber() + b.toNumber()] as the language
    computes it. *)
Theorem zeroExtendToMatch_then_add (a b : Binary) :
  all_bits (bits a) = true -> all_bits (bits b) = true ->
  len (bits b) < len (bits a) -> len (bits a) <= 53 ->
  exists b' r,
    zeroExtendToMatch b (VBinary a) = Ok b' /\
    len (bits b') = len (bits a) /\
    Double.toNumber b' = Double.toNumber b /\
    add a (VBinary b') = Ok r /\
    len (bits r) = len (bits a) + 1 /\
    Double.toNumber r = Double.plus (Double.toNumber a) (Double.toNumber b).
Proof.
  intros Ha Hb Hw Hl. unfold zeroExtendToMatch, assertIsBinary. cbn [bind].
  destruct (zeroExtend_preserves_width_and_value b (len (bits a)) Hw)
    as (b' & Hext & Hlen & Hval).
  exists b'. rewrite Hext.
  assert (Hb' : all_bits (bits b') = true)
    by exact (zeroExtend_all_bits b (len (bits a)) b' Hb Hext).
  assert (Hnum : Double.toNumber b' = Double.toNumber b).
  { rewrite !toNumber_place_sum in Hval.
    destruct b as [lb], b' as [lb']. cbn [bits] in *.
    rewrite !toNumber_exact by lia. now rewrite Hval. }
  destruct (add_width_and_sum_parts a b' Ha Hb' (eq_sym Hlen) Hl)
    as (r & Hadd & Hwr & Hsum).
  exists r. rewrite <- Hnum. repeat split; assumption.
Qed.

Lemma zeroExtendToMatch_then_add_witness :
  exists b' r,
    zeroExtendToMatch (new_Binary [1;0;1]) (VBinary (new_Binary [1;0;1;1])) = Ok b' /\
    len (bits b') = len [1;0;1;1] /\
    Double.toNumber b' = Double.toNumber (new_Binary [1;0;1]) /\
    add (new_Binary [1;0;1;1]) (VBinary b') = Ok r /\
    len (bits r) = len [1;0;1;1] + 1 /\
    Double.toNumber r
    = Double.plus (Double.toNumber (new_Binary [1;0;1;1]))
                  (Double.toNumber (new_Binary [1;0;1])).
Proof.
  apply (zeroExtendToMatch_then_add (new_Binary [1;0;1;1]) (new_Binary [1;0;1]));
    [reflexivity | reflexivity | reflexivity | discriminate].
Defined.

Lemma toSignedNumber_double_returns (v : Binary) :
  exists z, Double.toSignedNumber v = Ok z.
Proof.
  unfold Double.toSignedNumber.
  destruct (add_same_width_returns v (new_Binary (Array_from (len (bits v)) 1)))
    as (c & s & Hadd & _).
  { cbn [bits]. now rewrite Array_from_len. }
  rewrite Hadd. cbn [bind].
  destruct (bits v) as [|[|p|p] l]; eauto.
Qed.

(** What [toSignedNumber()] returns with exact sums, it returns as a
    double up to width 53. *)
Lemma toSignedNumber_exact_Ok (v : Binary) (z : Z) :
  len (bits v) <= 53 ->
  (Double.toSignedNumber v = Ok (Double.Finite z) <-> toSignedNumber v = Ok z).
Proof.
  intros Hl. rewrite toSignedNumber_exact by exact Hl.
  destruct (toSignedNumber v) as [z' | e]; cbn [bind]; split; congruence.
Qed.

(** X12. [toSignedNumber()] never throws, whatever the Binary: its call
    of [add] is on an array of the same length.  For a Binary of width L,
    1 <= L <= 53, whose elements are all 0 or 1, [toNumber()] is the
    numeral [t] of the bits and the result is an integer between -2^(L-1)
    and 2^(L-1) - 1 that is [t] or [t - 2^L]. *)
Theorem toSignedNumber_range (v : Binary) :
  (exists x, Double.toSignedNumber v = Ok x) /\
  (all_bits (bits v) = true -> 0 < len (bits v) <= 53 ->
   exists z t,
     Double.toSignedNumber v = Ok (Double.Finite z) /\
     Double.toNumber v = Double.Finite t /\
     - 2 ^ (len (bits v) - 1) <= z < 2 ^ (len (bits v) - 1) /\
     (z = t \/ z = t - 2 ^ len (bits v))).
Proof.
  split; [apply toSignedNumber_double_returns|].
  destruct v as [[|x l]]; cbn [bits]; intros Hbits Hlen;
    [rewrite len_nil in Hlen; lia|].
  rewrite toSignedNumber_exact by (cbn [bits]; lia).
  rewrite toSignedNumber_place_sum by exact Hbits. cbn [bind].
  rewrite toNumber_exact by lia.
  pose proof (place_sum_bounds (x :: l)) as Hb.
  rewrite pow2_len_cons in *. rewrite len_cons.
  replace (len l + 1 - 1) with (len l) by lia.
  do 2 eexists. do 2 (split; [reflexivity|]).
  destruct (place_sum (x :: l) <? 2 ^ len l) eqn:E; lia.
Qed.

Lemma toSignedNumber_range_witness :
  exists z t,
    Double.toSignedNumber (new_Binary [1;0;0]) = Ok (Double.Finite z) /\
    Double.toNumber (new_Binary [1;0;0]) = Double.Finite t /\
    - 2 ^ (len [1;0;0] - 1) <= z < 2 ^ (len [1;0;0] - 1) /\
    (z = t \/ z = t - 2 ^ len [1;0;0]).
Proof.
  destruct (toSignedNumber_range (new_Binary [1;0;0])) as [_ H].
  apply H; [reflexivity | split; [reflexivity | discriminate]].
Defined.

(** X14. Signed addition.  For Binaries [a] and [b] of one width L,
    1 <= L <= 53, every element 0 or 1, whose signed readings add up to a
    number between -2^(L-1) and 2^(L-1) - 1: the bits of [a.add(b)] after
    the carry bit, read by [toSignedNumber()], are that sum. *)
Theorem add_signed (a b : Binary) (sa sb : Z) :
  all_bits (bits a) = true -> all_bits (bits b) = true ->
  len (bits a) = len (bits b) -> 0 < len (bits a) <= 53 ->
  Double.toSignedNumber a = Ok (Double.Finite sa) ->
  Double.toSignedNumber b = Ok (Double.Finite sb) ->
  - 2 ^ (len (bits a) - 1) <= sa + sb < 2 ^ (len (bits a) - 1) ->
  exists r,
    add a (VBinary b) = Ok r /\
    Double.toSignedNumber (new_Binary (slice1 (bits r)))
    = Ok (Double.Finite (sa + sb)).
Proof.
  intros Ha Hb Hlen Hl Hsa Hsb Hrange.
  apply toSignedNumber_exact_Ok in Hsa; [|lia].
  apply toSignedNumber_exact_Ok in Hsb; [|lia].
  destruct (add_signed_exact a b sa sb Ha Hb Hlen ltac:(lia) Hsa Hsb Hrange)
    as (r & Hadd & Hr).
  exists r. split; [exact Hadd|].
  apply toSignedNumber_exact_Ok; [|exact Hr].
  assert (Hlen' : length (bits a) = length (bits b)) by (unfold len in Hlen; lia).
  destruct (add_same_width_returns a b Hlen') as (c & s & Hadd' & Hs).
  rewrite Hadd in Hadd'. injection Hadd' as ->. cbn [bits slice1 tail].
  unfold len in *. lia.
Qed.

Lemma add_signed_witness :
  exists r,
    add (new_Binary [1;0;1;1]) (VBinary (new_Binary [0;0;1;1])) = Ok r /\
    Double.toSignedNumber (new_Binary (slice1 (bits r)))
    = Ok (Double.Finite (-5 + 3)).
Proof.
  apply (add_signed (new_Binary [1;0;1;1]) (new_Binary [0;0;1;1]) (-5) 3);
    try reflexivity.
  - split; [reflexivity | discriminate].
  - split; vm_compute; [discriminate | reflexivity].
Defined.

Lemma forEach_from_only_ones (L : Z) (l : list Z) : forall (i : Z) (total : Double.number),
  forEach_from (map (fun x => if x =? 1 then 1 else 0) l) i
    (fun total bit i =>
       if bit =? 1 then Double.plus total (Double.pow2 (L - i - 1)) else total)
    total
  = forEach_from l i
      (fun total bit i =>
         if bit =? 1 then Double.plus total (Double.pow2 (L - i - 1)) else total)
      total.
Proof.
  induction l as [|x l IH]; intros i total; [reflexivity|].
  cbn [map forEach_from]. rewrite IH. now destruct (x =? 1).
Qed.

(** X16. Whatever the elements of the Binary, an element other than 1
    counts as a 0 in [toNumber()]; up to width 53 the result is an integer
    that is not negative and is below two to the width. *)
Theorem toNumber_bounds (a : Binary) :
  Double.toNumber a
  = Double.toNumber (new_Binary (map (fun x => if x =? 1 then 1 else 0) (bits a))) /\
  (len (bits a) <= 53 ->
   exists t, Double.toNumber a = Double.Finite t /\ 0 <= t < 2 ^ len (bits a)).
Proof.
  split.
  - unfold Double.toNumber, forEach. cbn [bits].
    now rewrite len_map, forEach_from_only_ones.
  - intros Hl. destruct a as [l]. cbn [bits] in *. exists (place_sum l).
    split; [now apply toNumber_exact | apply place_sum_bounds].
Qed.

Lemma toNumber_bounds_witness :
  exists t,
    Double.toNumber (new_Binary [1;7;0;1]) = Double.Finite t /\
    0 <= t < 2 ^ len [1;7;0;1].
Proof.
  destruct (toNumber_bounds (new_Binary [1;7;0;1])) as [_ H].
  apply H. discriminate.
Defined.

(** ** The logarithm of the host

    [fromUnsigned] starts its loop at [Math.floor(Math.log2(n))].  The
    logarithm is a double: just below a power of two it rounds up to the
    exponent of that power, as at 2^49 - 1, whose logarithm is 49 to the
    nearest double.  The lemmas below take what the host returns at [n] as
    a parameter [k] that is not below the exact floor. *)

Section HostLogarithm.

Variable host : Z -> option Z.

Lemma fromUnsigned_host_pos n k :
  n <> 0 -> host n = Some k ->
  fromUnsigned_host host (VInt n)
  = Ok (new_Binary (fromUnsigned_loop (Z.to_nat (k + 1)) n [])).
Proof.
  intros Hn Hk. unfold fromUnsigned_host.
  destruct (n =? 0) eqn:E; [lia|]. now rewrite Hk.
Qed.

Lemma fromUnsigned_host_spec n k :
  0 < n -> host n = Some k -> Z.log2 n <= k ->
  exists a,
    fromUnsigned_host host (VInt n) = Ok (new_Binary a) /\
    all_bits a = true /\ place_sum a = n /\ len a = k + 1.
Proof.
  intros Hn Hk Hle.
  pose proof (Z.log2_nonneg n) as Hlog.
  pose proof (Z.log2_spec n Hn) as [Hlo Hhi].
  exists (fromUnsigned_loop (Z.to_nat (k + 1)) n []).
  split; [apply fromUnsigned_host_pos; [lia | exact Hk]|].
  split; [apply fromUnsigned_loop_all_bits|].
  split.
  - apply fromUnsigned_loop_place_sum. rewrite Z2Nat.id by lia.
    split; [lia|]. apply Z.lt_le_trans with (2 ^ Z.succ (Z.log2 n)); [exact Hhi|].
    apply Z.pow_le_mono_r; lia.
  - unfold len. rewrite fromUnsigned_loop_length. lia.
Qed.

Lemma fromUnsigned_host_one :
  host 1 = Some 0 -> fromUnsigned_host host (VInt 1) = Ok (new_Binary [1]).
Proof. intros H1. unfold fromUnsigned_host. cbn. now rewrite H1. Qed.

Lemma fromSigned_host_pos n k :
  0 < n -> host n = Some k -> Z.log2 n <= k ->
  exists a,
    fromSigned_host host (VInt n) = Ok (new_Binary (0 :: a)) /\
    all_bits a = true /\ place_sum a = n /\ len a = k + 1.
Proof.
  intros Hn Hk Hle.
  destruct (fromUnsigned_host_spec n k Hn Hk Hle) as (a & Hu & Hbits & Hval & Hlen).
  exists a. split; [|auto].
  unfold fromSigned_host. destruct (n =? 0) eqn:E0; [lia|].
  rewrite Z.abs_eq, Hu by lia. cbn [bind bits].
  rewrite zeroExtend_grows by (cbn [bits]; lia). cbn [bind bits].
  replace (len a + 1 - len a) with 1 by lia.
  destruct (n >? 0) eqn:E1; [reflexivity | lia].
Qed.

Lemma fromSigned_host_neg n k :
  n < 0 -> host (- n) = Some k -> Z.log2 (- n) <= k -> host 1 = Some 0 ->
  exists a,
    fromSigned_host host (VInt n) = Ok (new_Binary (1 :: a)) /\
    all_bits (1 :: a) = true /\
    len (1 :: a) = k + 2 /\
    place_sum (1 :: a) = 2 ^ len (1 :: a) + n.
Proof.
  intros Hn Hk Hle H1.
  destruct (fromUnsigned_host_spec (- n) k ltac:(lia) Hk Hle)
    as (u & Hu & Hbits & Hval & Hlen).
  pose proof (Z.log2_nonneg (- n)) as Hlog.
  unfold fromSigned_host. destruct (n =? 0) eqn:E0; [lia|].
  rewrite Z.abs_neq, Hu by lia. cbn [bind bits].
  rewrite zeroExtend_grows by (cbn [bits]; lia). cbn [bind bits].
  replace (len u + 1 - len u) with 1 by lia.
  destruct (n >? 0) eqn:E1; [lia|].
  rewrite (fromUnsigned_host_one H1). cbn [bind].
  rewrite zeroExtend_grows by (cbn [bits]; change (len [1]) with 1; lia).
  cbn [bind bits]. change (len [1]) with 1.
  replace (len u + 1 - 1) with (len u) by lia.
  unfold len at 1. rewrite Nat2Z.id.
  change (repeat 0 (Z.to_nat 1) ++ u) with (0 :: u).
  destruct (add_carry_sum (not (new_Binary (0 :: u)))
              (new_Binary (repeat 0 (length u) ++ [1])))
    as (c & s & Hadd & Hls & Hs & Hc & Hsum).
  { apply all_bits_map_flip. }
  { cbn [bits]. apply all_bits_app. split; [now apply all_bits_repeat | reflexivity]. }
  { cbn [bits not map length]. rewrite length_map, length_app, repeat_length.
    cbn [length]. lia. }
  rewrite Hadd. cbn [bind bits slice1 tail].
  cbn [bits not] in Hsum, Hls. rewrite length_map in Hls.
  rewrite place_sum_app, place_sum_repeat_0, len_map in Hsum.
  rewrite place_sum_map_flip in Hsum
    by (apply all_bits_cons; split; [now left | exact Hbits]).
  rewrite (place_sum_bit_cons 0 u) in Hsum by now left.
  rewrite Hval in Hsum. change (place_sum [1]) with 1 in Hsum.
  pose proof (place_sum_bounds u) as Hbu. rewrite Hval in Hbu.
  pose proof (place_sum_bounds s) as Hbs.
  assert (Hl : len s = len (0 :: u)) by (unfold len; now rewrite Hls).
  rewrite Hl in Hbs. rewrite pow2_len_cons in Hsum, Hbs.
  assert (Hc0 : c = 0) by (destruct Hc as [-> | ->]; lia). subst c.
  destruct s as [|x s]; [discriminate Hls|].
  assert (Hls' : len s = len u) by (cbn [length] in Hls; unfold len; lia).
  assert (Hx : x = 1).
  { apply (place_sum_msb x s Hs). rewrite Hls'. lia. }
  subst x. exists s. split; [reflexivity|]. split; [exact Hs|].
  rewrite pow2_len_cons, len_cons, Hls'. split; lia.
Qed.

(** The bits of a positive [n] from its exact floor: the first is set,
    and no other array of bits with this value is as short. *)
Lemma fromUnsigned_loop_minimal n :
  0 < n ->
  let m := fromUnsigned_loop (Z.to_nat (Z.log2 n + 1)) n [] in
  len m = Z.log2 n + 1 /\ head m = Some 1 /\ all_bits m = true /\
  place_sum m = n /\
  forall a', all_bits a' = true -> place_sum a' = n ->
    len m <= len a' /\
    (len a' = len m -> a' = m) /\
    (head a' = Some 1 -> a' = m).
Proof.
  intros Hn m.
  pose proof (Z.log2_nonneg n) as Hlog.
  pose proof (Z.log2_spec n Hn) as [Hlo Hhi].
  assert (Hlen : len m = Z.log2 n + 1).
  { unfold m, len. rewrite fromUnsigned_loop_length. lia. }
  assert (Hbits : all_bits m = true) by apply fromUnsigned_loop_all_bits.
  assert (Hval : place_sum m = n).
  { apply fromUnsigned_loop_place_sum. rewrite Z2Nat.id by lia.
    replace (Z.log2 n + 1) with (Z.succ (Z.log2 n)) by lia. lia. }
  split; [exact Hlen|]. split.
  { unfold m. replace (Z.to_nat (Z.log2 n + 1)) with (S (Z.to_nat (Z.log2 n))) by lia.
    apply fromUnsigned_loop_head. rewrite Z2Nat.id by lia. exact Hlo. }
  split; [exact Hbits|]. split; [exact Hval|].
  intros a' Hbits' Hval'.
  assert (Hle : len m <= len a').
  { pose proof (place_sum_bounds a') as Hb. rewrite Hval' in Hb.
    assert (Z.log2 n < len a'); [|lia].
    apply (Z.pow_lt_mono_r_iff 2); [lia | apply len_nonneg | lia]. }
  assert (Heq : len a' = len m -> a' = m).
  { intros Hl. apply place_sum_inj; auto; [unfold len in Hl; lia | congruence]. }
  split; [exact Hle|]. split; [exact Heq|].
  intros Hhd. apply Heq.
  destruct a' as [|x t]; [discriminate Hhd|]. injection Hhd as ->.
  pose proof (proj1 (place_sum_msb 1 t Hbits') eq_refl) as Hmsb.
  rewrite Hval' in Hmsb. rewrite len_cons in *.
  assert (len t < Z.succ (Z.log2 n)); [|lia].
  apply (Z.pow_lt_mono_r_iff 2); [lia | lia | lia].
Qed.

(** A loop that starts above the exact floor writes a 0 for each exponent
    above it, and then the bits from the floor. *)
Lemma fromUnsigned_loop_leading_zeros n k :
  0 < n -> Z.log2 n <= k ->
  fromUnsigned_loop (Z.to_nat (k + 1)) n []
  = repeat 0 (Z.to_nat (k - Z.log2 n))
    ++ fromUnsigned_loop (Z.to_nat (Z.log2 n + 1)) n [].
Proof.
  intros Hn Hle.
  pose proof (Z.log2_nonneg n) as Hlog.
  pose proof (Z.log2_spec n Hn) as [Hlo Hhi].
  destruct (fromUnsigned_loop_minimal n Hn) as (Hlen & _ & Hbits & Hval & _).
  apply place_sum_inj.
  - apply fromUnsigned_loop_all_bits.
  - apply all_bits_app. split; [now apply all_bits_repeat | exact Hbits].
  - rewrite length_app, repeat_length, !fromUnsigned_loop_length. lia.
  - rewrite place_sum_app, place_sum_repeat_0, Hval.
    rewrite fromUnsigned_loop_place_sum; [lia|].
    rewrite Z2Nat.id by lia. split; [lia|].
    apply Z.lt_le_trans with (2 ^ Z.succ (Z.log2 n)); [exact Hhi|].
    apply Z.pow_le_mono_r; lia.
Qed.

End HostLogarithm.

(** With the exact floor for the host these are the definitions of the
    first part. *)
Lemma fromUnsigned_host_exact v : fromUnsigned_host Math_floor_log2 v = fromUnsigned v.
Proof. reflexivity. Qed.

Lemma fromSigned_host_exact v : fromSigned_host Math_floor_log2 v = fromSigned v.
Proof. reflexivity. Qed.

(** [fromUnsigned(2**49 - 1)] where the logarithm is 49: fifty bits, a 0
    and forty-nine 1s. *)
Example test_fromUnsigned_host_below_2_49 :
  fromUnsigned_host (fun _ => Some 49) (VInt (2 ^ 49 - 1))
  = Ok (new_Binary (0 :: repeat 1 49)).
Proof. vm_compute. reflexivity. Qed.

(** [fromSigned(-(2**49 - 1))] there: fifty-one bits. *)
Example test_fromSigned_host_below_2_49 :
  fromSigned_host (fun n => if n =? 1 then Some 0 else Some 49) (VInt (- (2 ^ 49 - 1)))
  = Ok (new_Binary ([1; 1] ++ repeat 0 48 ++ [1])).
Proof. vm_compute. reflexivity. Qed.

(** C5, as the code has it.  [fromUnsigned(0)] is the array [[0]].  For an
    integer [n > 0] the loop starts at the exponent [k] that the host
    returns for [Math.floor(Math.log2(n))]; when [k] is not below the
    exact floor of the logarithm, the result is [k + 1] bits: [k] minus
    the floor zeros, and then the bits [m] that the greedy loop writes
    from the floor.  These [m] are floor + 1 bits, the first is 1, their
    value is [n], no array of bits with value [n] is shorter, and [m] is
    the only one of that width and the only one whose first bit is 1.  So
    the result is this minimal array exactly when the host returns the
    exact floor, and has a leading 0 when the host rounds up. *)
Theorem fromUnsigned_width_follows_host (host : Z -> option Z) :
  fromUnsigned_host host (VInt 0) = Ok (new_Binary [0]) /\
  forall n k, 0 < n -> host n = Some k -> Z.log2 n <= k ->
    exists m,
      fromUnsigned_host host (VInt n)
      = Ok (new_Binary (repeat 0 (Z.to_nat (k - Z.log2 n)) ++ m)) /\
      len (repeat 0 (Z.to_nat (k - Z.log2 n)) ++ m) = k + 1 /\
      m = fromUnsigned_loop (Z.to_nat (Z.log2 n + 1)) n [] /\
      len m = Z.log2 n + 1 /\
      head m = Some 1 /\
      all_bits m = true /\
      place_sum m = n /\
      (forall a', all_bits a' = true -> place_sum a' = n ->
         len m <= len a' /\
         (len a' = len m -> a' = m) /\
         (head a' = Some 1 -> a' = m)) /\
      (Z.log2 n < k ->
       head (repeat 0 (Z.to_nat (k - Z.log2 n)) ++ m) = Some 0).
Proof.
  split; [reflexivity|]. intros n k Hn Hk Hle.
  pose proof (Z.log2_nonneg n) as Hlog.
  destruct (fromUnsigned_loop_minimal n Hn) as (Hlen & Hhd & Hbits & Hval & Hmin).
  exists (fromUnsigned_loop (Z.to_nat (Z.log2 n + 1)) n []).
  split.
  { rewrite (fromUnsigned_host_pos host n k) by (lia || exact Hk).
    now rewrite fromUnsigned_loop_leading_zeros. }
  split; [rewrite len_app, len_repeat, Hlen; lia|].
  do 6 (split; [reflexivity || assumption|]).
  intros Hlt. destruct (Z.to_nat (k - Z.log2 n)) as [|j] eqn:E; [lia | reflexivity].
Qed.

Lemma fromUnsigned_width_follows_host_witness :
  exists m,
    fromUnsigned_host (fun _ => Some 49) (VInt 562949953421311)
    = Ok (new_Binary (repeat 0 (Z.to_nat (49 - Z.log2 562949953421311)) ++ m)) /\
    len (repeat 0 (Z.to_nat (49 - Z.log2 562949953421311)) ++ m) = 49 + 1 /\
    m = fromUnsigned_loop (Z.to_nat (Z.log2 562949953421311 + 1)) 562949953421311 [] /\
    len m = Z.log2 562949953421311 + 1 /\
    head m = Some 1 /\
    all_bits m = true /\
    place_sum m = 562949953421311 /\
    (forall a', all_bits a' = true -> place_sum a' = 562949953421311 ->
       len m <= len a' /\
       (len a' = len m -> a' = m) /\
       (head a' = Some 1 -> a' = m)) /\
    (Z.log2 562949953421311 < 49 ->
     head (repeat 0 (Z.to_nat (49 - Z.log2 562949953421311)) ++ m) = Some 0).
Proof.
  destruct (fromUnsigned_width_follows_host (fun _ => Some 49)) as [_ H].
  apply (H 562949953421311 49); [reflexivity | reflexivity | discriminate].
Defined.

(** X11. For an integer [n] other than 0, with [k] what the host returns
    for [Math.floor(Math.log2(Math.abs(n)))], not below the exact floor,
    and 0 what it returns at 1: [fromSigned(n)] returns a Binary of width
    [k + 2], every element 0 or 1, whose first bit is 1 when [n < 0] and 0
    when [n > 0], and whose bits are the numeral of [n] modulo two to the
    width; up to width 53 that is its [toNumber()]. *)
Theorem fromSigned_shape (host : Z -> option Z) (n k : Z) :
  n <> 0 -> host (Z.abs n) = Some k -> Z.log2 (Z.abs n) <= k ->
  host 1 = Some 0 ->
  exists s a,
    fromSigned_host host (VInt n) = Ok (new_Binary (s :: a)) /\
    s = (if n <? 0 then 1 else 0) /\
    all_bits (s :: a) = true /\
    len (s :: a) = k + 2 /\
    place_sum (s :: a) = n mod 2 ^ len (s :: a) /\
    (len (s :: a) <= 53 ->
     Double.toNumber (new_Binary (s :: a))
     = Double.Finite (n mod 2 ^ len (s :: a))).
Proof.
  intros Hn Hk Hle H1.
  assert (Hshape : exists s a,
    fromSigned_host host (VInt n) = Ok (new_Binary (s :: a)) /\
    s = (if n <? 0 then 1 else 0) /\
    all_bits (s :: a) = true /\
    len (s :: a) = k + 2 /\
    place_sum (s :: a) = n mod 2 ^ len (s :: a)).
  { destruct (Z.lt_trichotomy n 0) as [Hneg | [-> | Hpos]]; [| lia |].
    - rewrite Z.abs_neq in Hk, Hle by lia.
      destruct (fromSigned_host_neg host n k Hneg Hk Hle H1)
        as (a & Hs & Hbits & Hlen & Hval).
      exists 1, a. destruct (n <? 0) eqn:E; [|lia].
      repeat (split; [assumption || reflexivity|]).
      rewrite Hval.
      pose proof (place_sum_bounds (1 :: a)) as Hb. rewrite Hval in Hb.
      rewrite <- (Z.mod_small (2 ^ len (1 :: a) + n) (2 ^ len (1 :: a))) at 1 by lia.
      rewrite <- (Z.mul_1_l (2 ^ len (1 :: a))) at 1.
      rewrite Z.add_comm. apply Z.mod_add. lia.
    - rewrite Z.abs_eq in Hk, Hle by lia.
      destruct (fromSigned_host_pos host n k Hpos Hk Hle)
        as (a & Hs & Hbits & Hval & Hlen).
      exists 0, a. destruct (n <? 0) eqn:E; [lia|].
      split; [exact Hs|]. split; [reflexivity|].
      split; [apply all_bits_cons; split; [now left | exact Hbits]|].
      split; [rewrite len_cons; lia|].
      rewrite place_sum_bit_cons by now left.
      pose proof (place_sum_bounds a) as Hb. rewrite Hval in *.
      rewrite pow2_len_cons. symmetry. rewrite Z.mul_0_l, Z.add_0_l.
      apply Z.mod_small. lia. }
  destruct Hshape as (s & a & Hs & Hsign & Hbits & Hlen & Hval).
  exists s, a. do 5 (split; [assumption|]).
  intros Hl. rewrite toNumber_exact by exact Hl. now rewrite Hval.
Qed.

Lemma fromSigned_shape_witness :
  exists s a,
    fromSigned_host (fun n => if n =? 1 then Some 0 else Some 49)
      (VInt (-562949953421311))
    = Ok (new_Binary (s :: a)) /\
    s = (if -562949953421311 <? 0 then 1 else 0) /\
    all_bits (s :: a) = true /\
    len (s :: a) = 49 + 2 /\
    place_sum (s :: a) = -562949953421311 mod 2 ^ len (s :: a) /\
    (len (s :: a) <= 53 ->
     Double.toNumber (new_Binary (s :: a))
     = Double.Finite (-562949953421311 mod 2 ^ len (s :: a))).
Proof.
  apply (fromSigned_shape (fun n => if n =? 1 then Some 0 else Some 49)
           (-562949953421311) 49);
    [discriminate | reflexivity | discriminate | reflexivity].
Defined.

(** X13. For a Binary [a] of width at most 53 whose elements are all 0
    or 1 and whose [toNumber()] is [t > 0], with [k] what the host returns
    for [Math.floor(Math.log2(t))], not below the exact floor:
    [fromUnsigned(t)] returns the bits of [a] without their leading zeros,
    behind as many zeros as [k] is above the exact floor.  It is [a]
    itself when the first bit of [a] is 1 and the host returns the exact
    floor, and is wider than [a] when the first bit of [a] is 1 and the
    host rounds up. *)
Theorem fromUnsigned_of_toNumber (host : Z -> option Z) (a : Binary) (t k : Z) :
  all_bits (bits a) = true -> len (bits a) <= 53 ->
  Double.toNumber a = Double.Finite t -> 0 < t ->
  host t = Some k -> Z.log2 t <= k ->
  exists m u,
    fromUnsigned_host host (VInt t) = Ok u /\
    bits u = repeat 0 (Z.to_nat (k - Z.log2 t)) ++ m /\
    bits a = repeat 0 (length (bits a) - length m) ++ m /\
    head m = Some 1 /\
    len m = Z.log2 t + 1 /\
    len m <= len (bits a) /\
    len (bits u) = k + 1 /\
    (head (bits a) = Some 1 -> k = Z.log2 t -> u = a) /\
    (head (bits a) = Some 1 -> Z.log2 t < k -> len (bits a) < len (bits u)).
Proof.
  destruct a as [l]. cbn [bits]. intros Hl Hw Hnum Ht Hk Hle.
  rewrite toNumber_exact in Hnum by exact Hw. injection Hnum as <-.
  pose proof (place_sum_bounds l) as Hb.
  pose proof (Z.log2_nonneg (place_sum l)) as Hlog.
  destruct (fromUnsigned_loop_minimal (place_sum l) Ht)
    as (Hlen & Hhd & Hbits & Hval & Hmin).
  destruct (Hmin l Hl eq_refl) as (Hshort & _ & Hsame).
  set (m := fromUnsigned_loop (Z.to_nat (Z.log2 (place_sum l) + 1)) (place_sum l) [])
    in *.
  exists m, (new_Binary (repeat 0 (Z.to_nat (k - Z.log2 (place_sum l))) ++ m)).
  cbn [bits].
  split.
  { rewrite (fromUnsigned_host_pos host _ k) by (lia || exact Hk).
    now rewrite fromUnsigned_loop_leading_zeros. }
  split; [reflexivity|].
  split.
  { apply place_sum_inj; auto.
    - apply all_bits_app. split; [now apply all_bits_repeat | exact Hbits].
    - rewrite length_app, repeat_length. unfold len in Hshort. lia.
    - rewrite place_sum_app, place_sum_repeat_0. lia. }
  do 3 (split; [assumption|]).
  split; [rewrite len_app, len_repeat; lia|].
  split.
  - intros Hhd1 ->. rewrite Z.sub_diag. cbn [Z.to_nat repeat app].
    now rewrite (Hsame Hhd1).
  - intros Hhd1 Hlt. rewrite len_app, len_repeat, <- (Hsame Hhd1). lia.
Qed.

Lemma fromUnsigned_of_toNumber_witness :
  exists m u,
    fromUnsigned_host (fun _ => Some 49) (VInt 562949953421311) = Ok u /\
    bits u = repeat 0 (Z.to_nat (49 - Z.log2 562949953421311)) ++ m /\
    repeat 1 49 = repeat 0 (length (repeat 1 49) - length m) ++ m /\
    head m = Some 1 /\
    len m = Z.log2 562949953421311 + 1 /\
    len m <= len (repeat 1 49) /\
    len (bits u) = 49 + 1 /\
    (head (repeat 1 49) = Some 1 -> 49 = Z.log2 562949953421311 ->
     u = new_Binary (repeat 1 49)) /\
    (head (repeat 1 49) = Some 1 -> Z.log2 562949953421311 < 49 ->
     len (repeat 1 49) < len (bits u)).
Proof.
  apply (fromUnsigned_of_toNumber (fun _ => Some 49) (new_Binary (repeat 1 49))
           562949953421311 49).
  - reflexivity.
  - discriminate.
  - vm_compute. reflexivity.
  - reflexivity.
  - reflexivity.
  - discriminate.
Defined.
